(** * Conditions of go-spring's SpringCore (spring-core/spring-condition.go)

    A shallow embedding of the condition primitives, the condition group,
    the linked chain of [conditionNode]s and the [Conditional] builder,
    followed by the properties of their evaluation.

    Conventions of the embedding.
    - A Go [panic] is an outcome of its own, next to a normal return; the
      panic value is kept ([errors.New] with the message of the source).
    - Go closures may have side effects (a call-counting stub, say), so the
      evaluation threads a world [W] through every call, in program order.
    - [conditionNode]s live in a store indexed by addresses, because
      [Conditional.Empty] compares the two pointers [head] and [curr] and the
      builder mutates the node [curr] points to. *)

From Stdlib Require Import ZArith String Ascii Lia.
From stdpp Require Import base list.

Set Warnings "-register-all".

Local Open Scope string_scope.
Local Open Scope list_scope.

(** ** Go values held in an [interface{}] *)

(** The dynamic values that reach the engine through [interface{}]: property
    values, expected values and bean selectors. [VSlice elem l] is a value
    of the type [[]elem] and [VMap key elem m] one of the type
    [map[key]elem], the element and key types being given by name; slices
    and maps are the types of property values Go cannot compare with
    [==]. *)
Inductive GoValue : Type :=
| VNil
| VBool (b : bool)
| VInt (z : Z)
| VInt64 (z : Z)
| VString (s : string)
| VSlice (elem : string) (l : list GoValue)
| VMap (key elem : string) (m : list (GoValue * GoValue)).

(** The dynamic type of a value; [TNil] for the nil interface, which has
    none. *)
Inductive GoType : Type :=
| TNil
| TBool
| TInt
| TInt64
| TString
| TSlice (elem : string)
| TMap (key elem : string).

Definition type_of (v : GoValue) : GoType :=
  match v with
  | VNil => TNil
  | VBool _ => TBool
  | VInt _ => TInt
  | VInt64 _ => TInt64
  | VString _ => TString
  | VSlice elem _ => TSlice elem
  | VMap key elem _ => TMap key elem
  end.

Definition GoType_eqb (t u : GoType) : bool :=
  match t, u with
  | TNil, TNil | TBool, TBool | TInt, TInt | TInt64, TInt64
  | TString, TString => true
  | TSlice e1, TSlice e2 => String.eqb e1 e2
  | TMap k1 e1, TMap k2 e2 => String.eqb k1 k2 && String.eqb e1 e2
  | _, _ => false
  end.

(** Whether Go can compare two values of the type with [==]. *)
Definition comparable (t : GoType) : bool :=
  match t with
  | TSlice _ | TMap _ _ => false
  | _ => true
  end.

(** The comparison of two values of one comparable type. *)
Definition value_eqb (x y : GoValue) : bool :=
  match x, y with
  | VNil, VNil => true
  | VBool a, VBool b => Bool.eqb a b
  | VInt a, VInt b => Z.eqb a b
  | VInt64 a, VInt64 b => Z.eqb a b
  | VString a, VString b => String.eqb a b
  | _, _ => false
  end.

(** Panics raised by the Go runtime itself. *)
Inductive RuntimePanic : Type :=
| NilDereference
| UncomparableType.

(** The value carried by a panic. *)
Inductive PanicValue : Type :=
| ErrorsNew (msg : string)
| EvalError (err : string)
| Runtime (r : RuntimePanic).

(** A call either returns or panics. *)
Inductive outcome (A : Type) : Type :=
| Return (a : A)
| Panic (p : PanicValue).
Arguments Return {A} a.
Arguments Panic {A} p.

(** Go's [==] on two interface values: false when the dynamic types
    differ, whether they are comparable or not; when they are identical, the
    comparison of the values, or a run-time panic if that type is not
    comparable. *)
Definition iface_eq (x y : GoValue) : outcome bool :=
  if GoType_eqb (type_of x) (type_of y) then
    if comparable (type_of x) then Return (value_eqb x y)
    else Panic (Runtime UncomparableType)
  else Return false.

(** The type assertion [v.(string)]. *)
Definition as_string (v : GoValue) : option string :=
  match v with
  | VString s => Some s
  | _ => None
  end.

(** ** The two functions of package [strings] the engine calls *)

(** [strings.Contains(s, substr)]. *)
Fixpoint strings_Contains (s substr : string) : bool :=
  String.prefix substr s ||
  match s with
  | EmptyString => false
  | String _ s' => strings_Contains s' substr
  end.

(** [strings.Replace(s, old, new, -1)] for a non-empty [old]: the
    occurrences of [old] are replaced from left to right, without overlap.
    [skip] counts the bytes of a matched occurrence still to be dropped. *)
Fixpoint replace_from (skip : nat) (s old new : string) : string :=
  match s with
  | EmptyString => EmptyString
  | String c s' =>
      match skip with
      | S k => replace_from k s' old new
      | O =>
          if String.prefix old s
          then new ++ replace_from (String.length old - 1) s' old new
          else String c (replace_from O s' old new)
      end
  end.

Definition strings_Replace (s old new : string) : string :=
  replace_from O s old new.

(** ** The context *)

(** Modelled from the spec: the [SpringContext] interface is declared
    outside the files at hand; the engine needs these four read-only
    operations of it (section 6 of the specification), under the names the
    source calls them by. [FindBean] yields a handle and a found flag. *)
Record SpringContext : Type := {
  GetPrefixProperties : string -> list string;
  GetDefaultProperty : string -> GoValue -> GoValue * bool;
  FindBean : GoValue -> option nat * bool;
  GetProfile : string
}.

(** What [types.Eval] hands back: an error, or a [TypeAndValue] whose
    [Value] is nil for an expression that is not constant and otherwise
    renders as a text through [String()]. *)
Inductive EvalResult : Type :=
| EvalFailed (err : string)
| EvalOk (value : option string).

(** [ConditionOp] is an [int]. *)
Definition ConditionOp : Type := Z.
Definition ConditionOr : ConditionOp := 1%Z.
Definition ConditionAnd : ConditionOp := 2%Z.
Definition ConditionNone : ConditionOp := 3%Z.

(** What the engine takes from other packages: the constant
    [SpringConst.UNIMPLEMENTED_METHOD], [types.Eval] (called on a fresh file
    set, a nil package and no position, so a function of the expression
    alone) and [cast.ToString]. *)
Class Externals : Type := {
  UNIMPLEMENTED_METHOD : string;
  types_Eval : string -> EvalResult;
  cast_ToString : GoValue -> string
}.

(** Addresses of [conditionNode]s in a store. *)
Abbreviation addr := nat (only parsing).

Section Engine.

(** The state Go closures may read and write. *)
Variable W : Type.

Context `{Externals}.

(** *** A small state and panic monad *)

Definition Eff (A : Type) : Type := W -> outcome A * W.

Definition ret {A : Type} (a : A) : Eff A := fun w => (Return a, w).

Definition panic {A : Type} (p : PanicValue) : Eff A := fun w => (Panic p, w).

Definition bind {A B : Type} (m : Eff A) (k : A -> Eff B) : Eff B :=
  fun w =>
    match m w with
    | (Return a, w') => k a w'
    | (Panic p, w') => (Panic p, w')
    end.

Definition lift {A : Type} (o : outcome A) : Eff A := fun w => (o, w).

Notation "'let*' x ':=' m 'in' k" := (bind m (fun x => k))
  (at level 10, x name, m at level 100, k at level 200).

(** *** Conditions *)

Definition ConditionFunc : Type := SpringContext -> Eff bool.

(** A value of the interface [Condition]: nil, or one of the
    implementations of the file. A condition implemented elsewhere, and a
    [Conditional] used as a condition, is a [functionCondition]: any
    [Matches] method is a function of the context that may return, panic
    and change the world. A [Matches] that does not return (a [Conditional]
    attached to itself, a closure that loops) has no term here: what is
    proved about a chain is relative to conditions that return or panic. *)
Inductive Condition : Type :=
| nilCondition
| functionCondition (fn : ConditionFunc)
| notCondition (cond : Condition)
| propertyCondition (name : string)
| missingPropertyCondition (name : string)
| propertyValueCondition (name : string) (havingValue : GoValue)
| beanCondition (selector : GoValue)
| missingBeanCondition (selector : GoValue)
| expressionCondition (expression : string)
| profileCondition (profile : string)
| conditions (op : ConditionOp) (cond : list Condition).

Definition is_nil (c : Condition) : bool :=
  match c with
  | nilCondition => true
  | _ => false
  end.

(** The three [for ... range c.cond] loops of [conditions.Matches]. *)
Definition range_or {A : Type} (f : A -> Eff bool) : list A -> Eff bool :=
  fix go (l : list A) : Eff bool :=
    match l with
    | [] => ret false
    | c0 :: l' => let* r := f c0 in if r then ret true else go l'
    end.

Definition range_and {A : Type} (f : A -> Eff bool) : list A -> Eff bool :=
  fix go (l : list A) : Eff bool :=
    match l with
    | [] => ret true
    | c0 :: l' => let* ok := f c0 in if negb ok then ret false else go l'
    end.

Definition range_none {A : Type} (f : A -> Eff bool) : list A -> Eff bool :=
  fix go (l : list A) : Eff bool :=
    match l with
    | [] => ret true
    | c0 :: l' => let* r := f c0 in if r then ret false else go l'
    end.

(** [Matches] of every implementation. *)
Fixpoint Matches (c : Condition) (ctx : SpringContext) {struct c} : Eff bool :=
  match c with
  | nilCondition => panic (Runtime NilDereference)
  | functionCondition fn => fn ctx
  | notCondition cond => let* r := Matches cond ctx in ret (negb r)
  | propertyCondition name =>
      ret (0 <? length (GetPrefixProperties ctx name))%nat
  | missingPropertyCondition name =>
      ret (length (GetPrefixProperties ctx name) =? 0)%nat
  | propertyValueCondition name havingValue =>
      let '(val, ok) := GetDefaultProperty ctx name (VString "") in
      if negb ok then ret false
      else
        match as_string havingValue with
        | None => lift (iface_eq val havingValue)
        | Some expectValue =>
            if negb (strings_Contains expectValue "$")
            then lift (iface_eq val (VString expectValue))
            else
              let expr :=
                strings_Replace expectValue "$" (cast_ToString val) in
              match types_Eval expr with
              | EvalOk (Some text) => ret (String.eqb text "true")
              | EvalOk None => panic (Runtime NilDereference)
              | EvalFailed err => panic (EvalError err)
              end
        end
  | beanCondition selector =>
      let '(_, ok) := FindBean ctx selector in ret ok
  | missingBeanCondition selector =>
      let '(_, ok) := FindBean ctx selector in ret (negb ok)
  | expressionCondition _ => panic (ErrorsNew UNIMPLEMENTED_METHOD)
  | profileCondition profile =>
      if negb (String.eqb profile "")
         && negb (String.eqb profile (GetProfile ctx))
      then ret false
      else ret true
  | conditions op cond =>
      if (length cond =? 0)%nat then panic (ErrorsNew "no condition")
      else if (op =? ConditionOr)%Z
           then range_or (fun c0 => Matches c0 ctx) cond
      else if (op =? ConditionAnd)%Z
           then range_and (fun c0 => Matches c0 ctx) cond
      else if (op =? ConditionNone)%Z
           then range_none (fun c0 => Matches c0 ctx) cond
      else panic (ErrorsNew "error condition op mode")
  end.

(** *** The chain *)

(** A [*conditionNode] is an address of the store ([addr], a natural
    number); a nil pointer is [None]. *)

(** [conditionNode]: the fields [cond], [op] and [next]. *)
Record conditionNode : Type := {
  node_cond : Condition;
  node_op : ConditionOp;
  node_next : option addr
}.

(** [newConditionNode] returns [&conditionNode{}]: every field has its
    zero value. *)
Definition newConditionNode : conditionNode :=
  {| node_cond := nilCondition; node_op := 0%Z; node_next := None |}.

Definition set_cond (x : Condition) (n : conditionNode) : conditionNode :=
  {| node_cond := x; node_op := node_op n; node_next := node_next n |}.

Definition set_op (o : ConditionOp) (n : conditionNode) : conditionNode :=
  {| node_cond := node_cond n; node_op := o; node_next := node_next n |}.

Definition set_next (p : option addr) (n : conditionNode) : conditionNode :=
  {| node_cond := node_cond n; node_op := node_op n; node_next := p |}.

(** [c.next != nil && c.next.cond == nil]. A link that leaves the store
    has no counterpart in Go, where a pointer is nil or valid; it counts
    as a nil dereference. *)
Definition next_lacks_cond (h : list conditionNode) (n : conditionNode)
  : outcome bool :=
  match node_next n with
  | None => Return false
  | Some q =>
      match h !! q with
      | Some n' => Return (is_nil (node_cond n'))
      | None => Panic (Runtime NilDereference)
      end
  end.

(** [conditionNode.Matches]. The recursion follows [next] through the
    store, so it is bounded by [fuel]; [None] means the fuel ran out. A
    receiver that is no address of the store is a nil dereference. *)
Fixpoint conditionNode_Matches (fuel : nat) (h : list conditionNode)
    (c : addr) (ctx : SpringContext) (w : W) {struct fuel}
  : option (outcome bool * W) :=
  match fuel with
  | O => None
  | S fuel' =>
      match h !! c with
      | None => Some (Panic (Runtime NilDereference), w)
      | Some n =>
          if is_nil (node_cond n) then Some (Return true, w)
          else
            match next_lacks_cond h n with
            | Panic p => Some (Panic p, w)
            | Return true =>
                Some (Panic (ErrorsNew "last op need a cond triggered"), w)
            | Return false =>
                match Matches (node_cond n) ctx w with
                | (Panic p, w1) => Some (Panic p, w1)
                | (Return r, w1) =>
                    match node_next n with
                    | Some q =>
                        if (node_op n =? ConditionOr)%Z then
                          if r then Some (Return r, w1)
                          else conditionNode_Matches fuel' h q ctx w1
                        else if (node_op n =? ConditionAnd)%Z then
                          if r then conditionNode_Matches fuel' h q ctx w1
                          else Some (Return false, w1)
                        else
                          Some (Panic (ErrorsNew "error condition op mode"),
                                w1)
                    | None => Some (Return r, w1)
                    end
                end
            end
      end
  end.

(** *** The builder *)

(** [Conditional]: the pointers [head] and [curr], together with the store
    of the nodes it owns. *)
Record Conditional : Type := {
  store : list conditionNode;
  head : addr;
  curr : addr
}.

Definition NewConditional : Conditional :=
  {| store := [newConditionNode]; head := 0; curr := 0 |}.

Definition Empty (c : Conditional) : bool := (head c =? curr c)%nat.

(** [Conditional.Matches]; a chain has no more nodes than its store. *)
Definition Conditional_Matches (c : Conditional) (ctx : SpringContext)
    (w : W) : option (outcome bool * W) :=
  conditionNode_Matches (S (length (store c))) (store c) (head c) ctx w.

(** [Or] and [And]: a fresh node is allocated at the end of the store,
    the node under [curr] gets the operator and the link, and [curr] moves
    on. An update through an address that is not in the store changes
    nothing here (Go would panic; [curr_in_store] shows that a [Conditional]
    made by [NewConditional] never gets there). *)
Definition Or (c : Conditional) : Conditional :=
  let node := length (store c) in
  let s := store c ++ [newConditionNode] in
  let s := alter (set_op ConditionOr) (curr c) s in
  let s := alter (set_next (Some node)) (curr c) s in
  {| store := s; head := head c; curr := node |}.

Definition And (c : Conditional) : Conditional :=
  let node := length (store c) in
  let s := store c ++ [newConditionNode] in
  let s := alter (set_op ConditionAnd) (curr c) s in
  let s := alter (set_next (Some node)) (curr c) s in
  {| store := s; head := head c; curr := node |}.

(** [c.curr.cond != nil]. *)
Definition curr_holds_cond (c : Conditional) : bool :=
  match store c !! curr c with
  | Some n => negb (is_nil (node_cond n))
  | None => false
  end.

Definition OnCondition (c : Conditional) (cond : Condition) : Conditional :=
  let c := if curr_holds_cond c then And c else c in
  {| store := alter (set_cond cond) (curr c) (store c);
     head := head c;
     curr := curr c |}.

Definition OnConditionNot (c : Conditional) (cond : Condition) : Conditional :=
  OnCondition c (notCondition cond).

Definition OnProperty (c : Conditional) (name : string) : Conditional :=
  OnCondition c (propertyCondition name).

Definition OnMissingProperty (c : Conditional) (name : string) : Conditional :=
  OnCondition c (missingPropertyCondition name).

Definition OnPropertyValue (c : Conditional) (name : string)
    (havingValue : GoValue) : Conditional :=
  OnCondition c (propertyValueCondition name havingValue).

Definition OnBean (c : Conditional) (selector : GoValue) : Conditional :=
  OnCondition c (beanCondition selector).

Definition OnMissingBean (c : Conditional) (selector : GoValue) : Conditional :=
  OnCondition c (missingBeanCondition selector).

Definition OnExpression (c : Conditional) (expression : string) : Conditional :=
  OnCondition c (expressionCondition expression).

Definition OnMatches (c : Conditional) (fn : ConditionFunc) : Conditional :=
  OnCondition c (functionCondition fn).

Definition OnProfile (c : Conditional) (profile : string) : Conditional :=
  OnCondition c (profileCondition profile).

(** A sequence of calls of the three builder methods every other one goes
    through, applied to a fresh [Conditional]. *)
Inductive BuilderCall : Type :=
| CallOr
| CallAnd
| CallOnCondition (cond : Condition).

Definition call (c : Conditional) (b : BuilderCall) : Conditional :=
  match b with
  | CallOr => Or c
  | CallAnd => And c
  | CallOnCondition cond => OnCondition c cond
  end.

Definition build_from (c : Conditional) (calls : list BuilderCall)
  : Conditional :=
  fold_left call calls c.

Definition build (calls : list BuilderCall) : Conditional :=
  build_from NewConditional calls.

(** Whether some call of the sequence attached a condition. *)
Definition attaches (b : BuilderCall) : bool :=
  match b with
  | CallOnCondition cond => negb (is_nil cond)
  | _ => false
  end.

(** The links of a store point forward and stay inside it. *)
Definition links_forward (h : list conditionNode) : Prop :=
  forall (i : addr) (n : conditionNode) (q : addr),
    h !! i = Some n -> node_next n = Some q -> i < q < length h.

(** The shape the builder maintains: [head] and [curr] are addresses of
    the store, whose links point forward. *)
Definition well_formed (c : Conditional) : Prop :=
  head c < length (store c) /\ curr c < length (store c)
  /\ links_forward (store c).

(** The state an operator call on a fresh [Conditional] leaves behind
    for good: [curr] has left [head], whose node holds no condition and
    has a successor. *)
Definition head_bypassed (c : Conditional) : Prop :=
  head c <> curr c /\
  exists (n : conditionNode) (q : addr),
    store c !! head c = Some n /\ node_cond n = nilCondition
    /\ node_next n = Some q.

(** No member of [cs] matches: evaluated one after the other from the
    world [w], each returns false, and the last leaves the world [w']. *)
Fixpoint none_match (cs : list Condition) (ctx : SpringContext) (w w' : W)
  : Prop :=
  match cs with
  | [] => w' = w
  | c0 :: cs' =>
      exists w1, Matches c0 ctx w = (Return false, w1)
                 /\ none_match cs' ctx w1 w'
  end.

End Engine.

Arguments ret {W A} a _.
Arguments panic {W A} p _.
Arguments bind {W A B} m k _.
Arguments lift {W A} o _.
Arguments range_or {W A} f l.
Arguments range_and {W A} f l.
Arguments range_none {W A} f l.
Arguments nilCondition {W}.
Arguments functionCondition {W} fn.
Arguments notCondition {W} cond.
Arguments propertyCondition {W} name.
Arguments missingPropertyCondition {W} name.
Arguments propertyValueCondition {W} name havingValue.
Arguments beanCondition {W} selector.
Arguments missingBeanCondition {W} selector.
Arguments expressionCondition {W} expression.
Arguments profileCondition {W} profile.
Arguments conditions {W} op cond.
Arguments is_nil {W} c.
Arguments Matches {W} {_} c ctx _.
Arguments node_cond {W} c.
Arguments node_op {W} c.
Arguments node_next {W} c.
Arguments Build_conditionNode {W} node_cond node_op node_next.
Arguments newConditionNode {W}.
Arguments set_cond {W} x n.
Arguments set_op {W} o n.
Arguments set_next {W} p n.
Arguments next_lacks_cond {W} h n.
Arguments conditionNode_Matches {W} {_} fuel h c ctx w.
Arguments store {W} c.
Arguments head {W} c.
Arguments curr {W} c.
Arguments Build_Conditional {W} store head curr.
Arguments NewConditional {W}.
Arguments Empty {W} c.
Arguments Conditional_Matches {W} {_} c ctx w.
Arguments Or {W} c.
Arguments And {W} c.
Arguments curr_holds_cond {W} c.
Arguments OnCondition {W} c cond.
Arguments OnConditionNot {W} c cond.
Arguments OnProperty {W} c name.
Arguments OnMissingProperty {W} c name.
Arguments OnPropertyValue {W} c name havingValue.
Arguments OnBean {W} c selector.
Arguments OnMissingBean {W} c selector.
Arguments OnExpression {W} c expression.
Arguments OnMatches {W} c fn.
Arguments OnProfile {W} c profile.
Arguments CallOr {W}.
Arguments CallAnd {W}.
Arguments CallOnCondition {W} cond.
Arguments call {W} c b.
Arguments build_from {W} c calls.
Arguments build {W} calls.
Arguments attaches {W} b.
Arguments links_forward {W} h.
Arguments well_formed {W} c.
Arguments head_bypassed {W} c.
Arguments none_match {W} {_} cs ctx w w'.

(** ** Test doubles

    A world that counts calls, a stub condition that bumps the counter, and
    a small context, evaluator and renderer to run the engine on. *)
Module Demo.

(** A condition that answers [b] and counts the call. *)
Definition counting (b : bool) : Condition nat :=
  functionCondition (fun _ w => (Return b, S w)).

(** Properties [threads = 8], [name = "go"], [mode = "nil"] and
    [tags = []interface{}{}]; one bean, ["cache"]; profile ["prod"]. *)
Definition ctx : SpringContext :=
  {| GetPrefixProperties := fun prefix =>
       if String.eqb prefix "threads" then ["threads"]
       else if String.eqb prefix "name" then ["name"]
       else if String.eqb prefix "tags" then ["tags"]
       else if String.eqb prefix "mode" then ["mode"]
       else [];
     GetDefaultProperty := fun name def =>
       if String.eqb name "threads" then (VInt 8, true)
       else if String.eqb name "name" then (VString "go", true)
       else if String.eqb name "tags" then (VSlice "interface {}" [], true)
       else if String.eqb name "mode" then (VString "nil", true)
       else (def, false);
     FindBean := fun selector =>
       match selector with
       | VString "cache" => (Some 0, true)
       | _ => (None, false)
       end;
     GetProfile := "prod" |}.

(** The evaluator on the expressions the examples need; ["nil"] is an
    expression that is not constant. *)
Definition Eval (expr : string) : EvalResult :=
  if String.eqb expr "8>=4" then EvalOk (Some "true")
  else if String.eqb expr "8>=9" then EvalOk (Some "false")
  else if String.eqb expr "nil" then EvalOk None
  else EvalFailed "syntax error".

Definition ToString (v : GoValue) : string :=
  match v with
  | VInt 8 => "8"
  | VString s => s
  | _ => ""
  end.

#[global] Instance externals : Externals :=
  {| UNIMPLEMENTED_METHOD := "unimplemented method";
     types_Eval := Eval;
     cast_ToString := ToString |}.

(** The chain of two counting stubs joined by one operator call. *)
Definition two (x : bool) (o : BuilderCall nat) (y : bool)
  : Conditional nat :=
  build [CallOnCondition (counting x); o; CallOnCondition (counting y)].

(** A node that holds a condition, linked to a node that holds none. *)
Definition dangling_store : list (conditionNode nat) :=
  [ {| node_cond := counting true; node_op := ConditionOr;
       node_next := Some 1 |};
    newConditionNode ].

End Demo.

(** ** The expression a chain stands for

    Reference definitions the evaluation of built chains is compared with;
    they are not part of the source. *)

Section Expression.

Context {W : Type} `{Externals}.

(** The two operator calls of the builder. *)
Inductive Link : Type :=
| LinkOr
| LinkAnd.

Definition link_op (l : Link) : ConditionOp :=
  match l with
  | LinkOr => ConditionOr
  | LinkAnd => ConditionAnd
  end.

Definition link_call (l : Link) : BuilderCall W :=
  match l with
  | LinkOr => CallOr
  | LinkAnd => CallAnd
  end.

(** The calls [.Or().OnCondition(a1).And().OnCondition(a2)...] that follow
    the first [OnCondition]. *)
Fixpoint chain_calls (rest : list (Link * Condition W))
  : list (BuilderCall W) :=
  match rest with
  | [] => []
  | (l, a) :: rest' => link_call l :: CallOnCondition a :: chain_calls rest'
  end.

(** [a0 l1 (a1 l2 (a2 ...))]: the operators nest to the right and each one
    short-circuits. *)
Fixpoint eval_chain (a0 : Condition W) (rest : list (Link * Condition W))
    (ctx : SpringContext) : Eff W bool :=
  match rest with
  | [] => Matches a0 ctx
  | (l, a1) :: rest' =>
      bind (Matches a0 ctx) (fun r =>
        match l with
        | LinkOr => if r then ret true else eval_chain a1 rest' ctx
        | LinkAnd => if r then eval_chain a1 rest' ctx else ret false
        end)
  end.

(** The nodes of that chain, laid out from address [k] on. *)
Fixpoint chain_nodes (k : addr) (a0 : Condition W)
    (rest : list (Link * Condition W)) : list (conditionNode W) :=
  match rest with
  | [] => [ {| node_cond := a0; node_op := 0%Z; node_next := None |} ]
  | (l, a1) :: rest' =>
      {| node_cond := a0; node_op := link_op l; node_next := Some (S k) |}
        :: chain_nodes (S k) a1 rest'
  end.

(** Every member of [cs] matches: evaluated one after the other from the
    world [w], each returns true, and the last leaves the world [w']. *)
Fixpoint all_match (cs : list (Condition W)) (ctx : SpringContext)
    (w w' : W) : Prop :=
  match cs with
  | [] => w' = w
  | c0 :: cs' =>
      exists w1, Matches c0 ctx w = (Return true, w1)
                 /\ all_match cs' ctx w1 w'
  end.

(** A store that is one chain: the node at [i] is linked to the node at
    [i + 1] by OR or AND, the last node has no successor, [head] is the
    first node and [curr] the last. *)
Definition linear_chain (c : Conditional W) : Prop :=
  head c = 0 /\ S (curr c) = length (store c) /\
  forall (i : addr) (n : conditionNode W),
    store c !! i = Some n ->
    (S i < length (store c) ->
       node_next n = Some (S i)
       /\ (node_op n = ConditionOr \/ node_op n = ConditionAnd))
    /\ (S i = length (store c) -> node_next n = None).

End Expression.

(** ** Binding of function arguments (spring-core/spring-bean-arg.go) *)

(** How [newFnStringBindingArg] can end abnormally: through
    [SpringLogger.Panic], a function of another package that is taken to log
    its message and panic with it, as its callers rely on, or through a
    panic of the Go runtime. *)
Inductive ArgPanic : Type :=
| LoggerPanic (msg : string)
| IndexOutOfRange
| MakeSliceLenOutOfRange.

Inductive arg_outcome (A : Type) : Type :=
| Done (a : A)
| Failed (p : ArgPanic).
Arguments Done {A} a.
Arguments Failed {A} p.

Definition arg_bind {A B : Type} (m : arg_outcome A)
    (k : A -> arg_outcome B) : arg_outcome B :=
  match m with
  | Done a => k a
  | Failed p => Failed p
  end.

(** [strings.Index(s, substr)]: the index of the first occurrence, or -1. *)
Fixpoint index_from (k : Z) (s substr : string) : Z :=
  if String.prefix substr s then k
  else
    match s with
    | EmptyString => (-1)%Z
    | String _ s' => index_from (k + 1) s' substr
    end.

Definition strings_Index (s substr : string) : Z := index_from 0 s substr.

(** The slices [s[:i]] and [s[i:]], for [0 <= i <= len(s)]. *)
Definition slice_to (s : string) (i : Z) : string :=
  String.substring 0 (Z.to_nat i) s.

Definition slice_from (s : string) (i : Z) : string :=
  String.substring (Z.to_nat i) (String.length s - Z.to_nat i) s.

(** The double quote. *)
Definition dquote : string := String "034"%char EmptyString.

Definition should_have_index (tag : string) : string :=
  "tag " ++ dquote ++ tag ++ dquote ++ " should have index".

Definition should_not_have_index (tag : string) : string :=
  "tag " ++ dquote ++ tag ++ dquote ++ " shouldn't have index".

Definition error_indexed_tag (tag : string) : string :=
  "error indexed tag " ++ dquote ++ tag ++ dquote.

(** What the binding reads of a [reflect.Type] of kind [Func]. *)
Record FuncType : Type := {
  NumIn : nat;
  IsVariadic : bool
}.

(** [fnStringBindingArg]. *)
Record fnStringBindingArg : Type := {
  fnType : FuncType;
  fnTags : list (list string);
  withReceiver : bool
}.

(** [make([][]string, numIn)]. *)
Definition make_fnTags (numIn : Z) : arg_outcome (list (list string)) :=
  if (numIn <? 0)%Z then Failed MakeSliceLenOutOfRange
  else Done (replicate (Z.to_nat numIn) []).

(** [fnTags[i]] read and written, with the bounds check of the runtime. *)
Definition slot_read (tags : list (list string)) (i : Z)
  : arg_outcome (list string) :=
  if (i <? 0)%Z then Failed IndexOutOfRange
  else
    match tags !! Z.to_nat i with
    | Some s => Done s
    | None => Failed IndexOutOfRange
    end.

Definition slot_write (tags : list (list string)) (i : Z) (v : list string)
  : arg_outcome (list (list string)) :=
  if (i <? 0)%Z then Failed IndexOutOfRange
  else if (Z.to_nat i <? length tags)%nat
       then Done (<[Z.to_nat i := v]> tags)
       else Failed IndexOutOfRange.

(** [fnTags[i] = append(fnTags[i], x)]. *)
Definition slot_append (tags : list (list string)) (i : Z) (x : string)
  : arg_outcome (list (list string)) :=
  arg_bind (slot_read tags i) (fun old => slot_write tags i (old ++ [x])).

(** [for i, tag := range tags], from the index [i] on, with the state
    [s]; a panic ends the loop. *)
Fixpoint range_tags {S : Type} (step : S -> Z -> string -> arg_outcome S)
    (i : Z) (tags : list string) (s : S) : arg_outcome S :=
  match tags with
  | [] => Done s
  | tag :: tags' =>
      arg_bind (step s i tag) (fun s' => range_tags step (i + 1) tags' s')
  end.

Section Binding.

(** [strconv.Atoi]: the number when [err == nil]. *)
Variable Atoi : string -> option Z.

(** The body of the loop over indexed tags. *)
Definition indexed_step (numIn : Z) (variadic : bool)
    (tags : list (list string)) (_ : Z) (tag : string)
  : arg_outcome (list (list string)) :=
  let index := strings_Index tag ":" in
  if (index <=? 0)%Z then Failed (LoggerPanic (should_have_index tag))
  else
    match Atoi (slice_to tag index) with
    | None => Failed (LoggerPanic (should_have_index tag))
    | Some i =>
        if (i <? 0)%Z || (numIn <=? i)%Z
        then Failed (LoggerPanic (error_indexed_tag tag))
        else if variadic && (i =? numIn - 1)%Z
             then slot_append tags i (slice_from tag (index + 1))
             else slot_write tags i [slice_from tag (index + 1)]
    end.

(** The body of the loop over tags without index. *)
Definition plain_step (numIn : Z) (variadic : bool)
    (tags : list (list string)) (i : Z) (tag : string)
  : arg_outcome (list (list string)) :=
  let index := strings_Index tag ":" in
  let has_index :=
    if (0 <? index)%Z
    then match Atoi (slice_to tag index) with
         | Some _ => true
         | None => false
         end
    else false in
  if has_index then Failed (LoggerPanic (should_not_have_index tag))
  else if variadic && (numIn - 1 <=? i)%Z
       then slot_append tags (numIn - 1) tag
       else slot_write tags i [tag].

(** Whether the first tag carries an index. *)
Definition first_indexed (tags : list string) : bool :=
  match tags with
  | [] => false
  | tag :: _ =>
      if negb (String.eqb tag "") then
        let i := strings_Index tag ":" in
        if (0 <? i)%Z
        then match Atoi (slice_to tag i) with
             | Some _ => true
             | None => false
             end
        else false
      else false
  end.

(** [newFnStringBindingArg]. *)
Definition newFnStringBindingArg (fnType0 : FuncType) (withReceiver0 : bool)
    (tags : list string) : arg_outcome fnStringBindingArg :=
  let numIn := (Z.of_nat (NumIn fnType0)
                - if withReceiver0 then 1 else 0)%Z in
  arg_bind (make_fnTags numIn) (fun fnTags0 =>
    let variadic := IsVariadic fnType0 in
    arg_bind
      (if (0 <? length tags)%nat then
         if first_indexed tags
         then range_tags (indexed_step numIn variadic) 0 tags fnTags0
         else range_tags (plain_step numIn variadic) 0 tags fnTags0
       else Done fnTags0)
      (fun fnTags1 =>
         Done {| fnType := fnType0; fnTags := fnTags1;
                 withReceiver := withReceiver0 |})).

(** The index and the rest of a tag of the form [i:rest], as the loops
    read them. *)
Definition tag_index (tag : string) : option Z :=
  let index := strings_Index tag ":" in
  if (0 <? index)%Z then Atoi (slice_to tag index) else None.

Definition tag_rest (tag : string) : string :=
  slice_from tag (strings_Index tag ":" + 1).

(** The tags whose index is [i], in the order they were given. *)
Definition tags_at (i : nat) (tags : list string) : list string :=
  List.filter
    (fun tag =>
       match tag_index tag with
       | Some j => (j =? Z.of_nat i)%Z
       | None => false
       end) tags.

(** What the loop over indexed tags leaves in the slot [i] that held
    [old]: the last slot of a variadic function collects the rests of all
    its tags, any other slot keeps the rest of its last tag. *)
Definition indexed_slot (numIn : Z) (variadic : bool) (i : nat)
    (old : list string) (tags : list string) : list string :=
  if variadic && (Z.of_nat i =? numIn - 1)%Z
  then old ++ map tag_rest (tags_at i tags)
  else match last (tags_at i tags) with
       | Some tag => [tag_rest tag]
       | None => old
       end.

(** The number of parameters to bind. *)
Definition numIn_of (fnType0 : FuncType) (withReceiver0 : bool) : Z :=
  (Z.of_nat (NumIn fnType0) - if withReceiver0 then 1 else 0)%Z.

End Binding.

(** A decimal [Atoi] for 64-bit [int]: an optional sign and at least one
    digit, within the range of [int]. *)
Module DemoArgs.

Definition digit (c : ascii) : option Z :=
  let n := (Z.of_nat (nat_of_ascii c) - 48)%Z in
  if (0 <=? n)%Z && (n <=? 9)%Z then Some n else None.

Fixpoint digits (acc : Z) (s : string) : option Z :=
  match s with
  | EmptyString => Some acc
  | String c s' =>
      match digit c with
      | Some d => digits (acc * 10 + d) s'
      | None => None
      end
  end.

Definition in_int (z : Z) : option Z :=
  if (- 2 ^ 63 <=? z)%Z && (z <? 2 ^ 63)%Z then Some z else None.

Definition Atoi (s : string) : option Z :=
  match s with
  | EmptyString => None
  | String c s' =>
      if Ascii.eqb c "+"%char then
        match s' with
        | EmptyString => None
        | _ => match digits 0 s' with Some z => in_int z | None => None end
        end
      else if Ascii.eqb c "-"%char then
        match s' with
        | EmptyString => None
        | _ => match digits 0 s' with Some z => in_int (- z) | None => None end
        end
      else match digits 0 s with Some z => in_int z | None => None end
  end.

(** [func(a, b, c)] and [func(a, b, ...c)]. *)
Definition three : FuncType := {| NumIn := 3; IsVariadic := false |}.
Definition three_variadic : FuncType := {| NumIn := 3; IsVariadic := true |}.

End DemoArgs.

(** ** Option arguments (spring-core/spring-bean-arg.go) *)

Section Options.

Context {W : Type} `{Externals}.

(** The [reflect.Value] an option function returns. *)
Variable V : Type.

(** [optionArg]: its condition, and [opt_invoke] for what [call] does once
    the condition holds, [reflect.ValueOf(arg.fn).Call(arg.arg.Get(arg,
    beanAssembly))[0]]: the arguments are bound and the function is called
    through reflection, which may panic and change the world. The
    registration point ([file], [line]) plays no part in the evaluation. *)
Record optionArg : Type := {
  opt_cond : Conditional W;
  opt_invoke : SpringContext -> Eff W V
}.

Definition with_cond (arg : optionArg) (c : Conditional W) : optionArg :=
  {| opt_cond := c; opt_invoke := opt_invoke arg |}.

(** The condition methods of [optionArg]; each calls the method of
    [Conditional] that its body names. *)
Definition optionArg_Or (arg : optionArg) : optionArg :=
  with_cond arg (Or (opt_cond arg)).

Definition optionArg_And (arg : optionArg) : optionArg :=
  with_cond arg (And (opt_cond arg)).

Definition ConditionOn (arg : optionArg) (cond : Condition W) : optionArg :=
  with_cond arg (OnCondition (opt_cond arg) cond).

Definition ConditionNot (arg : optionArg) (cond : Condition W) : optionArg :=
  with_cond arg (OnConditionNot (opt_cond arg) cond).

Definition ConditionOnProperty (arg : optionArg) (name : string)
  : optionArg :=
  with_cond arg (OnProperty (opt_cond arg) name).

Definition ConditionOnMissingProperty (arg : optionArg) (name : string)
  : optionArg :=
  with_cond arg (OnMissingProperty (opt_cond arg) name).

Definition ConditionOnPropertyValue (arg : optionArg) (name : string)
    (havingValue : GoValue) : optionArg :=
  with_cond arg (OnPropertyValue (opt_cond arg) name havingValue).

Definition ConditionOnBean (arg : optionArg) (selector : GoValue)
  : optionArg :=
  with_cond arg (OnBean (opt_cond arg) selector).

Definition ConditionOnMissingBean (arg : optionArg) (selector : GoValue)
  : optionArg :=
  with_cond arg (OnMissingBean (opt_cond arg) selector).

Definition ConditionOnExpression (arg : optionArg) (expression : string)
  : optionArg :=
  with_cond arg (OnExpression (opt_cond arg) expression).

Definition ConditionOnMatches (arg : optionArg) (fn : ConditionFunc W)
  : optionArg :=
  with_cond arg (OnMatches (opt_cond arg) fn).

(** [ConditionOnProfile] calls [arg.cond.OnProperty(profile)]. *)
Definition ConditionOnProfile (arg : optionArg) (profile : string)
  : optionArg :=
  with_cond arg (OnProperty (opt_cond arg) profile).

(** [optionArg.call]: [None] inside the outcome is the invalid
    [reflect.Value{}] returned when the condition does not hold; the outer
    [None] is the fuel of the walk running out. *)
Definition optionArg_call (arg : optionArg) (ctx : SpringContext) (w : W)
  : option (outcome (option V) * W) :=
  match Conditional_Matches (opt_cond arg) ctx w with
  | None => None
  | Some (Panic p, w1) => Some (Panic p, w1)
  | Some (Return false, w1) => Some (Return None, w1)
  | Some (Return true, w1) =>
      match opt_invoke arg ctx w1 with
      | (Return v, w2) => Some (Return (Some v), w2)
      | (Panic p, w2) => Some (Panic p, w2)
      end
  end.

(** The loop of [fnOptionBindingArg.Get], with the arguments collected so
    far. *)
Fixpoint options_loop (options : list optionArg) (args : list V)
    (ctx : SpringContext) (w : W) : option (outcome (list V) * W) :=
  match options with
  | [] => Some (Return args, w)
  | option :: options' =>
      match optionArg_call option ctx w with
      | None => None
      | Some (Panic p, w1) => Some (Panic p, w1)
      | Some (Return None, w1) => options_loop options' args ctx w1
      | Some (Return (Some arg), w1) =>
          options_loop options' (args ++ [arg]) ctx w1
      end
  end.

(** [fnOptionBindingArg.Get]. *)
Definition fnOptionBindingArg_Get (options : list optionArg)
    (ctx : SpringContext) (w : W) : option (outcome (list V) * W) :=
  options_loop options [] ctx w.

(** The values of the options whose condition holds, in the order of the
    options: an option whose condition returns false is passed over, an
    option whose condition returns true is invoked and gives one value. *)
Inductive collects : list optionArg -> SpringContext -> W -> list V -> W
                     -> Prop :=
| collects_nil ctx w : collects [] ctx w [] w
| collects_skip option options ctx w w1 args w' :
    Conditional_Matches (opt_cond option) ctx w = Some (Return false, w1) ->
    collects options ctx w1 args w' ->
    collects (option :: options) ctx w args w'
| collects_take option options ctx w w1 v w2 args w' :
    Conditional_Matches (opt_cond option) ctx w = Some (Return true, w1) ->
    opt_invoke option ctx w1 = (Return v, w2) ->
    collects options ctx w2 args w' ->
    collects (option :: options) ctx w (v :: args) w'.

End Options.

Arguments optionArg W V : clear implicits.
Arguments Build_optionArg {W V} opt_cond opt_invoke.
Arguments opt_cond {W V} o.
Arguments opt_invoke {W V} o _ _.
Arguments with_cond {W V} arg c.
Arguments optionArg_Or {W V} arg.
Arguments optionArg_And {W V} arg.
Arguments ConditionOn {W V} arg cond.
Arguments ConditionNot {W V} arg cond.
Arguments ConditionOnProperty {W V} arg name.
Arguments ConditionOnMissingProperty {W V} arg name.
Arguments ConditionOnPropertyValue {W V} arg name havingValue.
Arguments ConditionOnBean {W V} arg selector.
Arguments ConditionOnMissingBean {W V} arg selector.
Arguments ConditionOnExpression {W V} arg expression.
Arguments ConditionOnMatches {W V} arg fn.
Arguments ConditionOnProfile {W V} arg profile.
Arguments optionArg_call {W _ V} arg ctx w.
Arguments options_loop {W _ V} options args ctx w.
Arguments fnOptionBindingArg_Get {W _ V} options ctx w.
Arguments collects {W _ V} _ _ _ _ _.
Arguments collects_nil {W _ V} ctx w.
Arguments collects_skip {W _ V} option options ctx w w1 args w' _ _.
Arguments collects_take {W _ V} option options ctx w w1 v w2 args w' _ _ _.

(** ** The values bound to the parameters (spring-core/spring-bean-arg.go) *)

Section ArgValues.

Context {W V : Type}.

(** [getArgValue] fills a fresh [reflect.Value] from a tag, through the
    property binding and the bean registry of other files: here a function
    of the position of the parameter in the function type, of whether the
    value is an element of the variadic parameter, and of the tag, that
    may panic and change the world. *)
Variable getArgValue : nat -> bool -> string -> W -> outcome V * W.

(** How [fnStringBindingArg.Get] can end: with the values, with a panic of
    [getArgValue], or with the panic of [reflect.Type.In] on a position the
    function type does not have. *)
Inductive get_outcome (A : Type) : Type :=
| Got (a : A)
| GetPanicked (p : PanicValue)
| FuncIndexOutOfBounds.

(** The inner loop, over the tags of the variadic parameter. *)
Fixpoint get_elems (pos : nat) (tags : list string) (args : list V) (w : W)
  : get_outcome (list V) * W :=
  match tags with
  | [] => (Got _ args, w)
  | tag :: tags' =>
      match getArgValue pos true tag w with
      | (Return ev, w1) => get_elems pos tags' (args ++ [ev]) w1
      | (Panic p, w1) => (GetPanicked _ p, w1)
      end
  end.

(** The outer loop, [for i, tags := range ca.fnTags], from the index [i]
    on. *)
Fixpoint get_slots (ca : fnStringBindingArg) (i : nat)
    (slots : list (list string)) (args : list V) (w : W)
  : get_outcome (list V) * W :=
  match slots with
  | [] => (Got _ args, w)
  | tags :: slots' =>
      let variadic := IsVariadic (fnType ca) in
      let numIn := numIn_of (fnType ca) (withReceiver ca) in
      let pos := if withReceiver ca then i + 1 else i in
      if (NumIn (fnType ca) <=? pos)%nat then (FuncIndexOutOfBounds _, w)
      else if (Z.of_nat i <? numIn - 1)%Z
              || ((Z.of_nat i =? numIn - 1)%Z && negb variadic)
      then
        match getArgValue pos false
                match tags with
                | [] => ""
                | tag :: _ => tag
                end w with
        | (Return iv, w1) => get_slots ca (S i) slots' (args ++ [iv]) w1
        | (Panic p, w1) => (GetPanicked _ p, w1)
        end
      else
        match get_elems pos tags args w with
        | (Got _ args1, w1) => get_slots ca (S i) slots' args1 w1
        | other => other
        end
  end.

(** [fnStringBindingArg.Get]. *)
Definition fnStringBindingArg_Get (ca : fnStringBindingArg) (w : W)
  : get_outcome (list V) * W :=
  get_slots ca 0 (fnTags ca) [] w.

End ArgValues.

Arguments Got {A} a.
Arguments GetPanicked {A} p.
Arguments FuncIndexOutOfBounds {A}.

(** ** Properties *)

Section Properties.

Context {W : Type} `{Externals}.

Implicit Types (c : Conditional W) (h : list (conditionNode W))
  (n : conditionNode W) (a b d : Condition W) (p q : addr)
  (ctx : SpringContext) (w : W).

Lemma is_nil_false a : a <> nilCondition -> is_nil a = false.
Proof. destruct a; simpl; congruence. Qed.

Lemma is_nil_true a : is_nil a = true -> a = nilCondition.
Proof. destruct a; simpl; congruence. Qed.

(** *** Equality of interface values *)

Lemma GoType_eqb_eq (t u : GoType) : GoType_eqb t u = true <-> t = u.
Proof.
  destruct t, u; simpl; try (split; [discriminate|congruence]);
    try (split; reflexivity).
  - rewrite String.eqb_eq. split; congruence.
  - rewrite Bool.andb_true_iff, !String.eqb_eq. split; [|intros [= -> ->]; auto].
    intros [-> ->]. reflexivity.
Qed.

Lemma GoType_eqb_neq (t u : GoType) : GoType_eqb t u = false <-> t <> u.
Proof.
  rewrite <- GoType_eqb_eq. destruct (GoType_eqb t u); split; congruence.
Qed.

(** On a comparable type [value_eqb] decides the equality of the values. *)
Lemma value_eqb_eq (x y : GoValue) :
  type_of x = type_of y -> comparable (type_of x) = true ->
  (value_eqb x y = true <-> x = y).
Proof.
  destruct x, y; simpl; try discriminate; intros _ _.
  - split; reflexivity.
  - rewrite Bool.eqb_true_iff. split; congruence.
  - rewrite Z.eqb_eq. split; congruence.
  - rewrite Z.eqb_eq. split; congruence.
  - rewrite String.eqb_eq. split; congruence.
Qed.

(** *** Evaluation of one node *)

(** The equation of [conditionNode.Matches] at a node that holds a
    condition and whose successor, if any, holds one too. *)
Lemma conditionNode_Matches_step fuel h p n ctx w :
  h !! p = Some n ->
  is_nil (node_cond n) = false ->
  next_lacks_cond h n = Return false ->
  conditionNode_Matches (S fuel) h p ctx w =
    match Matches (node_cond n) ctx w with
    | (Panic e, w1) => Some (Panic e, w1)
    | (Return r, w1) =>
        match node_next n with
        | Some q =>
            if (node_op n =? ConditionOr)%Z then
              if r then Some (Return r, w1)
              else conditionNode_Matches fuel h q ctx w1
            else if (node_op n =? ConditionAnd)%Z then
              if r then conditionNode_Matches fuel h q ctx w1
              else Some (Return false, w1)
            else Some (Panic (ErrorsNew "error condition op mode"), w1)
        | None => Some (Return r, w1)
        end
    end.
Proof.
  intros Hp Hc Hn. simpl. rewrite Hp, Hc, Hn.
  destruct (Matches (node_cond n) ctx w) as [[r|e] w1]; reflexivity.
Qed.

Lemma next_lacks_cond_link h n q n' :
  node_next n = Some q -> h !! q = Some n' ->
  next_lacks_cond h n = Return (is_nil (node_cond n')).
Proof. intros Hq Hn'. unfold next_lacks_cond. now rewrite Hq, Hn'. Qed.

(** More fuel never changes a result. *)
Lemma conditionNode_Matches_fuel_mono fuel :
  forall fuel' h p ctx w r,
    conditionNode_Matches fuel h p ctx w = Some r ->
    fuel <= fuel' ->
    conditionNode_Matches fuel' h p ctx w = Some r.
Proof.
  induction fuel as [|fuel IH]; intros fuel' h p ctx w r Hr Hle.
  - discriminate.
  - destruct fuel' as [|fuel']; [lia|].
    simpl in *.
    destruct (h !! p) as [n|]; [|exact Hr].
    destruct (is_nil (node_cond n)); [exact Hr|].
    destruct (next_lacks_cond h n) as [[|]|e]; try exact Hr.
    destruct (Matches (node_cond n) ctx w) as [[r0|e] w1]; [|exact Hr].
    destruct (node_next n) as [q|]; [|exact Hr].
    destruct (node_op n =? ConditionOr)%Z.
    + destruct r0; [exact Hr|]. apply IH; [exact Hr|lia].
    + destruct (node_op n =? ConditionAnd)%Z; [|exact Hr].
      destruct r0; [|exact Hr]. apply IH; [exact Hr|lia].
Qed.



(** *** The builder keeps the store in shape *)

Lemma Or_length c : length (store (Or c)) = S (length (store c)).
Proof.
  unfold Or; simpl. rewrite !length_alter, length_app; simpl. lia.
Qed.

Lemma And_length c : length (store (And c)) = S (length (store c)).
Proof.
  unfold And; simpl. rewrite !length_alter, length_app; simpl. lia.
Qed.

Lemma Or_lookup_curr c n :
  store c !! curr c = Some n ->
  store (Or c) !! curr c =
    Some {| node_cond := node_cond n; node_op := ConditionOr;
            node_next := Some (length (store c)) |}.
Proof.
  intros Hn. unfold Or; simpl.
  rewrite !list_lookup_alter_eq, (lookup_app_l_Some _ _ _ _ Hn).
  reflexivity.
Qed.

Lemma And_lookup_curr c n :
  store c !! curr c = Some n ->
  store (And c) !! curr c =
    Some {| node_cond := node_cond n; node_op := ConditionAnd;
            node_next := Some (length (store c)) |}.
Proof.
  intros Hn. unfold And; simpl.
  rewrite !list_lookup_alter_eq, (lookup_app_l_Some _ _ _ _ Hn).
  reflexivity.
Qed.

Lemma Or_lookup_other c i :
  i <> curr c -> i < length (store c) ->
  store (Or c) !! i = store c !! i.
Proof.
  intros Hne Hlt. unfold Or; simpl.
  rewrite !list_lookup_alter_ne by congruence.
  now apply lookup_app_l.
Qed.

Lemma And_lookup_other c i :
  i <> curr c -> i < length (store c) ->
  store (And c) !! i = store c !! i.
Proof.
  intros Hne Hlt. unfold And; simpl.
  rewrite !list_lookup_alter_ne by congruence.
  now apply lookup_app_l.
Qed.

Lemma Or_lookup_new c :
  curr c < length (store c) ->
  store (Or c) !! length (store c) = Some newConditionNode.
Proof.
  intros Hlt. unfold Or; simpl.
  rewrite !list_lookup_alter_ne by lia.
  now rewrite list_lookup_middle.
Qed.

Lemma And_lookup_new c :
  curr c < length (store c) ->
  store (And c) !! length (store c) = Some newConditionNode.
Proof.
  intros Hlt. unfold And; simpl.
  rewrite !list_lookup_alter_ne by lia.
  now rewrite list_lookup_middle.
Qed.

Lemma links_forward_set_cond h i x :
  links_forward h -> links_forward (alter (set_cond x) i h).
Proof.
  intros Hfw j n q Hj Hq. rewrite length_alter.
  destruct (decide (i = j)) as [->|Hne].
  - rewrite list_lookup_alter_eq in Hj.
    destruct (h !! j) as [n0|] eqn:Hj0; simpl in Hj; [|discriminate].
    injection Hj as <-. exact (Hfw j n0 q Hj0 Hq).
  - rewrite list_lookup_alter_ne in Hj by exact Hne.
    exact (Hfw j n q Hj Hq).
Qed.

Lemma well_formed_new : well_formed (@NewConditional W).
Proof.
  split; [simpl; lia|]. split; [simpl; lia|].
  intros i n q Hi Hq. simpl in Hi.
  destruct i as [|i]; simpl in Hi; [|destruct i; discriminate].
  injection Hi as <-. discriminate.
Qed.

Lemma well_formed_Or c : well_formed c -> well_formed (Or c).
Proof.
  intros (Hh & Hc & Hfw). unfold well_formed. rewrite Or_length.
  split; [simpl; lia|]. split; [simpl; lia|].
  intros i n q Hi Hq. rewrite Or_length.
  destruct (decide (i = curr c)) as [->|Hne].
  - destruct (lookup_lt_is_Some_2 _ _ Hc) as [n0 Hn0].
    rewrite (Or_lookup_curr _ _ Hn0) in Hi. injection Hi as <-.
    simpl in Hq. injection Hq as <-. lia.
  - assert (i < S (length (store c))) as Hlt.
    { apply lookup_lt_Some in Hi. now rewrite Or_length in Hi. }
    destruct (decide (i = length (store c))) as [->|Hne'].
    + rewrite Or_lookup_new in Hi by exact Hc. injection Hi as <-.
      discriminate.
    + rewrite Or_lookup_other in Hi by lia.
      specialize (Hfw i n q Hi Hq). lia.
Qed.

Lemma well_formed_And c : well_formed c -> well_formed (And c).
Proof.
  intros (Hh & Hc & Hfw). unfold well_formed. rewrite And_length.
  split; [simpl; lia|]. split; [simpl; lia|].
  intros i n q Hi Hq. rewrite And_length.
  destruct (decide (i = curr c)) as [->|Hne].
  - destruct (lookup_lt_is_Some_2 _ _ Hc) as [n0 Hn0].
    rewrite (And_lookup_curr _ _ Hn0) in Hi. injection Hi as <-.
    simpl in Hq. injection Hq as <-. lia.
  - assert (i < S (length (store c))) as Hlt.
    { apply lookup_lt_Some in Hi. now rewrite And_length in Hi. }
    destruct (decide (i = length (store c))) as [->|Hne'].
    + rewrite And_lookup_new in Hi by exact Hc. injection Hi as <-.
      discriminate.
    + rewrite And_lookup_other in Hi by lia.
      specialize (Hfw i n q Hi Hq). lia.
Qed.

Lemma well_formed_OnCondition c x :
  well_formed c -> well_formed (OnCondition c x).
Proof.
  intros Hwf. unfold OnCondition.
  assert (well_formed (if curr_holds_cond c then And c else c)) as Hwf'.
  { destruct (curr_holds_cond c); [now apply well_formed_And|exact Hwf]. }
  destruct Hwf' as (Hh & Hc & Hfw).
  unfold well_formed; simpl. rewrite length_alter.
  split; [exact Hh|]. split; [exact Hc|].
  now apply links_forward_set_cond.
Qed.

Lemma well_formed_call c (bc : BuilderCall W) :
  well_formed c -> well_formed (call c bc).
Proof.
  destruct bc; simpl;
    auto using well_formed_Or, well_formed_And, well_formed_OnCondition.
Qed.





(** *** Three ways a node ends the walk at once *)

Lemma conditionNode_Matches_vacuous fuel h p n ctx w :
  h !! p = Some n -> is_nil (node_cond n) = true ->
  conditionNode_Matches (S fuel) h p ctx w = Some (Return true, w).
Proof. intros Hp Hc. simpl. now rewrite Hp, Hc. Qed.

Lemma conditionNode_Matches_dangling fuel h p q n n' ctx w :
  h !! p = Some n -> is_nil (node_cond n) = false ->
  node_next n = Some q -> h !! q = Some n' ->
  is_nil (node_cond n') = true ->
  conditionNode_Matches (S fuel) h p ctx w =
    Some (Panic (ErrorsNew "last op need a cond triggered"), w).
Proof.
  intros Hp Hc Hq Hn' Hc'. simpl.
  now rewrite Hp, Hc, (next_lacks_cond_link _ _ _ _ Hq Hn'), Hc'.
Qed.

Lemma conditionNode_Matches_last fuel h p n ctx w :
  h !! p = Some n -> is_nil (node_cond n) = false ->
  node_next n = None ->
  conditionNode_Matches (S fuel) h p ctx w =
    Some (Matches (node_cond n) ctx w).
Proof.
  intros Hp Hc Hq.
  rewrite (conditionNode_Matches_step _ _ _ _ _ _ Hp Hc)
    by (unfold next_lacks_cond; now rewrite Hq).
  rewrite Hq. now destruct (Matches (node_cond n) ctx w) as [[r|e] w1].
Qed.


(** *** Once bypassed, the head stays bypassed *)

Lemma head_bypassed_Or c :
  well_formed c -> head_bypassed c -> head_bypassed (Or c).
Proof.
  intros (Hh & Hc & _) (Hne & n & q & Hn & Hnil & Hq).
  split; [simpl; lia|]. exists n, q.
  change (head (Or c)) with (head c).
  rewrite Or_lookup_other by assumption. auto.
Qed.

Lemma head_bypassed_And c :
  well_formed c -> head_bypassed c -> head_bypassed (And c).
Proof.
  intros (Hh & Hc & _) (Hne & n & q & Hn & Hnil & Hq).
  split; [simpl; lia|]. exists n, q.
  change (head (And c)) with (head c).
  rewrite And_lookup_other by assumption. auto.
Qed.

Lemma head_bypassed_OnCondition c x :
  well_formed c -> head_bypassed c -> head_bypassed (OnCondition c x).
Proof.
  intros Hwf Hby. unfold OnCondition.
  assert (head_bypassed (if curr_holds_cond c then And c else c)) as Hby'.
  { destruct (curr_holds_cond c); [now apply head_bypassed_And|exact Hby]. }
  destruct Hby' as (Hne & n & q & Hn & Hnil & Hq).
  split; [exact Hne|]. exists n, q. simpl.
  rewrite list_lookup_alter_ne by congruence. auto.
Qed.

Lemma head_bypassed_call c (bc : BuilderCall W) :
  well_formed c -> head_bypassed c -> head_bypassed (call c bc).
Proof.
  destruct bc; simpl;
    auto using head_bypassed_Or, head_bypassed_And,
      head_bypassed_OnCondition.
Qed.

Lemma head_bypassed_build_from (calls : list (BuilderCall W)) :
  forall c, well_formed c -> head_bypassed c ->
            head_bypassed (build_from c calls).
Proof.
  induction calls as [|bc calls IH]; intros c Hwf Hby; [exact Hby|].
  apply IH; [apply well_formed_call, Hwf|apply head_bypassed_call; auto].
Qed.

Lemma head_bypassed_matches c ctx w :
  head_bypassed c -> Conditional_Matches c ctx w = Some (Return true, w).
Proof.
  intros (_ & n & q & Hn & Hnil & _). unfold Conditional_Matches.
  apply (conditionNode_Matches_vacuous _ _ _ n); [exact Hn|].
  now rewrite Hnil.
Qed.

(** *** The loop of a group under [ConditionNone] *)

Lemma Matches_group_none (x : Condition W) (cs : list (Condition W)) ctx :
  Matches (conditions ConditionNone (x :: cs)) ctx =
    range_none (fun x0 : Condition W => Matches x0 ctx) (x :: cs).
Proof. reflexivity. Qed.

Lemma range_none_true (cs : list (Condition W)) ctx :
  forall w w',
    range_none (fun x0 : Condition W => Matches x0 ctx) cs w = (Return true, w')
    <-> none_match cs ctx w w'.
Proof.
  induction cs as [|c0 cs IH]; intros w w'; simpl.
  - unfold ret. split; [now intros [= <-]|now intros ->].
  - unfold bind.
    destruct (Matches c0 ctx w) as [[[|]|e] w1] eqn:Hm.
    + split; [discriminate|]. intros (w2 & Hw2 & _). discriminate.
    + rewrite IH. split.
      * intros Hn. exists w1. auto.
      * intros (w2 & [= <-] & Hn). exact Hn.
    + split; [discriminate|]. intros (w2 & Hw2 & _). discriminate.
Qed.

Lemma range_none_false (cs : list (Condition W)) ctx :
  forall w w',
    range_none (fun x0 : Condition W => Matches x0 ctx) cs w = (Return false, w')
    <-> exists pre x post w1,
          cs = pre ++ x :: post /\ none_match pre ctx w w1
          /\ Matches x ctx w1 = (Return true, w').
Proof.
  induction cs as [|c0 cs IH]; intros w w'; simpl.
  - unfold ret. split; [discriminate|].
    intros (pre & x & post & w1 & Heq & _). now destruct pre.
  - unfold bind.
    destruct (Matches c0 ctx w) as [[[|]|e] w1] eqn:Hm.
    + unfold ret. split.
      * intros [= <-]. exists [], c0, cs, w. simpl. auto.
      * intros (pre & x & post & w2 & Heq & Hn & Hx).
        destruct pre as [|y pre]; simpl in *.
        -- injection Heq as <- <-. subst w2. congruence.
        -- injection Heq as <- ->. destruct Hn as (w3 & Hy & _).
           congruence.
    + rewrite IH. split.
      * intros (pre & x & post & w2 & -> & Hn & Hx).
        exists (c0 :: pre), x, post, w2. simpl. eauto.
      * intros (pre & x & post & w2 & Heq & Hn & Hx).
        destruct pre as [|y pre]; simpl in *.
        -- injection Heq as <- <-. subst w2. congruence.
        -- injection Heq as <- ->. destruct Hn as (w3 & Hy & Hn).
           assert (w3 = w1) as -> by congruence.
           exists pre, x, post, w2. auto.
    + split; [discriminate|].
      intros (pre & x & post & w2 & Heq & Hn & Hx).
      destruct pre as [|y pre]; simpl in *.
      * injection Heq as <- <-. subst w2. congruence.
      * injection Heq as <- ->. destruct Hn as (w3 & Hy & _).
        congruence.
Qed.


(** *** No regrouping *)

(** [a.And().b.Or().d] is [a && (b || d)], one node after the other, and
    not [(a && b) || d]: when [a] returns false the chain returns false
    and neither [b] nor [d] is evaluated. *)
Lemma and_then_or_not_regrouped a b d ctx w w1 :
  a <> nilCondition -> b <> nilCondition ->
  Matches a ctx w = (Return false, w1) ->
  Conditional_Matches
    (build [CallOnCondition a; CallAnd; CallOnCondition b; CallOr;
            CallOnCondition d]) ctx w
  = Some (Return false, w1).
Proof.
  intros Ha Hb Hm.
  change (build [CallOnCondition a; CallAnd; CallOnCondition b; CallOr;
                 CallOnCondition d])
    with {| store := [ {| node_cond := a; node_op := ConditionAnd;
                          node_next := Some 1 |};
                       {| node_cond := b; node_op := ConditionOr;
                          node_next := Some 2 |};
                       {| node_cond := d; node_op := 0%Z;
                          node_next := None |} ];
            head := 0; curr := 2 |}.
  unfold Conditional_Matches. cbn [store head length].
  erewrite conditionNode_Matches_step;
    [|reflexivity|now apply is_nil_false|].
  - cbn [node_cond node_next node_op]. now rewrite Hm.
  - etransitivity; [eapply next_lacks_cond_link; reflexivity|].
    cbn [node_cond]. now rewrite (is_nil_false _ Hb).
Qed.

Example strings_Replace_template :
  strings_Replace "$>=4 && $<16" "$" "8" = "8>=4 && 8<16".
Proof. reflexivity. Qed.

End Properties.

Section Claims.

Context {W : Type} `{Externals}.

Implicit Types (c : Conditional W) (h : list (conditionNode W))
  (n : conditionNode W) (a b d : Condition W) (p q : addr)
  (ctx : SpringContext) (w : W).

(** C1. At a node that holds a condition [A] and whose next node holds a
    condition: under OR, if [A] returns true the walk returns true in the
    world [A] left, whatever the remainder is and with a single unit of
    fuel (the remainder is not evaluated), and if [A] returns false the
    result is the walk of the remainder, started in the world [A] left;
    under AND, if [A] returns true the result is the walk of the remainder
    and if [A] returns false the walk returns false in the world [A] left.
    [A] is evaluated first and the remainder after it, one node after the
    other. *)
Theorem chain_node_short_circuit h p q n n' ctx w fuel :
  h !! p = Some n -> node_cond n <> nilCondition ->
  node_next n = Some q ->
  h !! q = Some n' -> node_cond n' <> nilCondition ->
  (node_op n = ConditionOr ->
     (forall w1, Matches (node_cond n) ctx w = (Return true, w1) ->
        conditionNode_Matches (S fuel) h p ctx w = Some (Return true, w1))
     /\
     (forall w1, Matches (node_cond n) ctx w = (Return false, w1) ->
        conditionNode_Matches (S fuel) h p ctx w =
          conditionNode_Matches fuel h q ctx w1))
  /\
  (node_op n = ConditionAnd ->
     (forall w1, Matches (node_cond n) ctx w = (Return true, w1) ->
        conditionNode_Matches (S fuel) h p ctx w =
          conditionNode_Matches fuel h q ctx w1)
     /\
     (forall w1, Matches (node_cond n) ctx w = (Return false, w1) ->
        conditionNode_Matches (S fuel) h p ctx w =
          Some (Return false, w1))).
Proof.
  intros Hp Hc Hq Hn' Hc'.
  apply is_nil_false in Hc. apply is_nil_false in Hc'.
  assert (next_lacks_cond h n = Return false) as Hlk.
  { rewrite (next_lacks_cond_link _ _ _ _ Hq Hn'). now rewrite Hc'. }
  pose proof (conditionNode_Matches_step fuel h p n ctx w Hp Hc Hlk) as Hs.
  rewrite Hq in Hs.
  split; intros Hop; rewrite Hop in Hs; simpl in Hs;
    split; intros w1 Hm; rewrite Hm in Hs; exact Hs.
Qed.

(** C2. [A.and()] with nothing attached after the operator: [Matches]
    panics with the error of the dangling operator, before [A] is
    evaluated. More generally a node that holds a condition and whose next
    node holds none panics so. *)
Theorem dangling_operator_panics :
  (forall a ctx w,
     a <> nilCondition ->
     Conditional_Matches (And (OnCondition NewConditional a)) ctx w =
       Some (Panic (ErrorsNew "last op need a cond triggered"), w))
  /\
  (forall h p q n n' ctx w fuel,
     h !! p = Some n -> node_cond n <> nilCondition ->
     node_next n = Some q ->
     h !! q = Some n' -> node_cond n' = nilCondition ->
     conditionNode_Matches (S fuel) h p ctx w =
       Some (Panic (ErrorsNew "last op need a cond triggered"), w)).
Proof.
  split.
  - intros a ctx w Ha. unfold Conditional_Matches.
    eapply conditionNode_Matches_dangling with (q := 1);
      try reflexivity; simpl; now apply is_nil_false.
  - intros h p q n n' ctx w fuel Hp Hc Hq Hn' Hc'.
    eapply conditionNode_Matches_dangling; eauto using is_nil_false.
    now rewrite Hc'.
Qed.

(** C6. A fresh [Conditional] matches every context: [Matches] returns
    true and leaves the world as it was. *)
Theorem fresh_Conditional_matches ctx w :
  Conditional_Matches (@NewConditional W) ctx w = Some (Return true, w).
Proof. reflexivity. Qed.

(** C8. On the same context and name, [propertyCondition] and
    [missingPropertyCondition] return opposite booleans, and so do
    [beanCondition] and [missingBeanCondition] on the same selector. *)
Theorem present_absent_complement ctx w :
  (forall name, exists r,
     Matches (propertyCondition name) ctx w = (Return r, w)
     /\ Matches (missingPropertyCondition name) ctx w = (Return (negb r), w))
  /\
  (forall selector, exists r,
     Matches (beanCondition selector) ctx w = (Return r, w)
     /\ Matches (missingBeanCondition selector) ctx w
        = (Return (negb r), w)).
Proof.
  split.
  - intros name. exists (0 <? length (GetPrefixProperties ctx name))%nat.
    split; [reflexivity|]. simpl. unfold ret.
    now destruct (length (GetPrefixProperties ctx name)).
  - intros selector. exists (snd (FindBean ctx selector)).
    simpl. now destruct (FindBean ctx selector).
Qed.

(** C4, on the code. After the first condition is attached to a fresh
    [Conditional], [head] and [curr] are still the same node and [Empty]
    still answers true; and an operator call alone, with no condition
    attached, makes it answer false. *)
Theorem Empty_after_first_OnCondition :
  (forall a, Empty (OnCondition (@NewConditional W) a) = true)
  /\ Empty (And (@NewConditional W)) = false
  /\ Empty (Or (@NewConditional W)) = false.
Proof. repeat split. Qed.


(** C3. [propertyValueCondition.Matches]: a missing property gives false
    and no panic. An expected value that is not a string is compared with
    the property value by Go's [==] on interfaces: false when the dynamic
    types differ, the equality of the two values when the types are the
    same and comparable, a panic of the runtime when they are the same and
    not comparable. An expected string without ["$"] matches exactly when
    the property value is that string. An expected string with ["$"] has
    every ["$"] replaced by the text of the property value and is handed to
    the evaluator: the answer is whether the text of the value it computed
    is ["true"]; its failure is raised as a panic with its error; a result
    without constant value ends in the nil dereference of the runtime; so
    [Matches] returns true exactly when the evaluator gave the text
    ["true"], and nothing but a computed text other than ["true"] makes it
    return false. *)
Theorem propertyValue_Matches_cases ctx name v w :
  let val := fst (GetDefaultProperty ctx name (VString "")) in
  let found := snd (GetDefaultProperty ctx name (VString "")) in
  (found = false ->
     Matches (propertyValueCondition name v) ctx w = (Return false, w))
  /\
  (found = true -> as_string v = None ->
     (type_of val <> type_of v ->
        Matches (propertyValueCondition name v) ctx w = (Return false, w))
     /\
     (type_of val = type_of v -> comparable (type_of v) = true ->
        exists r,
          Matches (propertyValueCondition name v) ctx w = (Return r, w)
          /\ (r = true <-> val = v))
     /\
     (type_of val = type_of v -> comparable (type_of v) = false ->
        Matches (propertyValueCondition name v) ctx w =
          (Panic (Runtime UncomparableType), w)))
  /\
  (found = true -> forall s, v = VString s ->
     strings_Contains s "$" = false ->
     Matches (propertyValueCondition name v) ctx w =
       (Return match val with
               | VString t => String.eqb t s
               | _ => false
               end, w))
  /\
  (found = true -> forall s, v = VString s ->
     strings_Contains s "$" = true ->
     let expr := strings_Replace s "$" (cast_ToString val) in
     (forall text, types_Eval expr = EvalOk (Some text) ->
        Matches (propertyValueCondition name v) ctx w =
          (Return (String.eqb text "true"), w))
     /\
     (forall err, types_Eval expr = EvalFailed err ->
        Matches (propertyValueCondition name v) ctx w =
          (Panic (EvalError err), w))
     /\
     (types_Eval expr = EvalOk None ->
        Matches (propertyValueCondition name v) ctx w =
          (Panic (Runtime NilDereference), w))
     /\
     (Matches (propertyValueCondition name v) ctx w = (Return true, w)
      <-> types_Eval expr = EvalOk (Some "true"))
     /\
     (Matches (propertyValueCondition name v) ctx w = (Return false, w)
      <-> exists text, types_Eval expr = EvalOk (Some text)
                       /\ text <> "true")).
Proof.
  simpl. destruct (GetDefaultProperty ctx name (VString "")) as [val ok].
  simpl. split; [|split; [|split]].
  - intros ->. reflexivity.
  - intros -> Hv. simpl. rewrite Hv. unfold lift, iface_eq.
    split; [|split].
    + intros Hty. apply GoType_eqb_neq in Hty. now rewrite Hty.
    + intros Hty Hcmp. pose proof Hty as Hty'.
      apply GoType_eqb_eq in Hty'. rewrite Hty', Hty, Hcmp.
      eexists. split; [reflexivity|].
      apply value_eqb_eq; [exact Hty|now rewrite Hty].
    + intros Hty Hcmp. pose proof Hty as Hty'.
      apply GoType_eqb_eq in Hty'. now rewrite Hty', Hty, Hcmp.
  - intros -> s -> Hs. simpl. rewrite Hs. simpl. unfold lift.
    now destruct val.
  - intros -> s -> Hs. simpl. rewrite Hs. simpl.
    destruct (types_Eval (strings_Replace s "$" (cast_ToString val)))
      as [err|[text|]] eqn:Hev; unfold ret, panic.
    + split; [discriminate|]. split; [now intros err' [= <-]|].
      split; [discriminate|]. split; [split; discriminate|].
      split; [discriminate|]. intros (text & Ht & _). discriminate.
    + split; [now intros text' [= <-]|]. split; [discriminate|].
      split; [discriminate|]. split.
      * split.
        -- intros [= Heq]. apply String.eqb_eq in Heq. now subst.
        -- intros [= ->]. reflexivity.
      * split.
        -- intros [= Heq]. apply String.eqb_neq in Heq. eauto.
        -- intros (text' & [= <-] & Hne).
           apply String.eqb_neq in Hne. now rewrite Hne.
    + split; [discriminate|]. split; [discriminate|].
      split; [reflexivity|]. split; [split; discriminate|].
      split; [discriminate|]. intros (text & Ht & _). discriminate.
Qed.

(** C5. On a [Conditional] whose [curr] node holds a condition,
    [OnCondition d] is [And] followed by the assignment of [d] to the new
    [curr] node: the old node gets the operator AND and a link to a fresh
    node, which holds [d] and nothing else. So two conditions attached in a
    row evaluate as their short-circuit conjunction: the second is
    evaluated only if the first returns true, in the world the first
    left. *)
Theorem OnCondition_twice_is_conjunction :
  (forall c n d,
     store c !! curr c = Some n -> node_cond n <> nilCondition ->
     OnCondition c d =
       {| store := alter (set_cond d) (curr (And c)) (store (And c));
          head := head c;
          curr := curr (And c) |}
     /\ curr (OnCondition c d) = length (store c)
     /\ store (OnCondition c d) !! curr c =
          Some {| node_cond := node_cond n; node_op := ConditionAnd;
                  node_next := Some (length (store c)) |}
     /\ store (OnCondition c d) !! length (store c) =
          Some {| node_cond := d; node_op := 0%Z; node_next := None |})
  /\
  (forall a b ctx w,
     a <> nilCondition -> b <> nilCondition ->
     Conditional_Matches (OnCondition (OnCondition NewConditional a) b)
       ctx w =
       Some match Matches a ctx w with
            | (Return true, w1) => Matches b ctx w1
            | (Return false, w1) => (Return false, w1)
            | (Panic e, w1) => (Panic e, w1)
            end).
Proof.
  split.
  - intros c n d Hn Hc.
    assert (curr_holds_cond c = true) as Hholds.
    { unfold curr_holds_cond. now rewrite Hn, (is_nil_false _ Hc). }
    assert (curr c < length (store c)) as Hlt
      by exact (lookup_lt_Some _ _ _ Hn).
    unfold OnCondition. rewrite Hholds.
    split; [reflexivity|]. split; [reflexivity|].
    cbn [store curr]. split.
    + change (curr (And c)) with (length (store c)).
      rewrite list_lookup_alter_ne by lia.
      now apply And_lookup_curr.
    + change (curr (And c)) with (length (store c)).
      rewrite list_lookup_alter_eq, And_lookup_new by exact Hlt.
      reflexivity.
  - intros a b ctx w Ha Hb.
    pose proof (is_nil_false _ Ha) as Ha'.
    pose proof (is_nil_false _ Hb) as Hb'.
    assert (OnCondition (OnCondition NewConditional a) b =
            {| store := [ {| node_cond := a; node_op := ConditionAnd;
                             node_next := Some 1 |};
                          {| node_cond := b; node_op := 0%Z;
                             node_next := None |} ];
               head := 0; curr := 1 |}) as ->.
    { unfold OnCondition at 1.
      replace (curr_holds_cond (OnCondition NewConditional a)) with true
        by (unfold curr_holds_cond; simpl; now rewrite Ha').
      reflexivity. }
    unfold Conditional_Matches. cbn [store head length].
    erewrite conditionNode_Matches_step;
      [|reflexivity|exact Ha'|].
    2: { etransitivity; [eapply next_lacks_cond_link; reflexivity|].
         cbn [node_cond]. now rewrite Hb'. }
    cbn [node_cond node_next node_op].
    destruct (Matches a ctx w) as [[[|]|e] w1]; try reflexivity.
    simpl (_ =? _)%Z. cbv iota.
    now erewrite conditionNode_Matches_last by (reflexivity || exact Hb').
Qed.

(** C7. A group under [ConditionNone] returns true exactly when no member
    matches (each returns false, in order), and false exactly when some
    member returns true after all the members before it returned false;
    the members after it are not evaluated. A group without members panics
    with "no condition" whatever the operator is, also one outside the
    three that are defined. *)
Theorem group_none_and_empty_group :
  (forall (cs : list (Condition W)) ctx w w',
     cs <> [] ->
     (Matches (conditions ConditionNone cs) ctx w = (Return true, w')
      <-> none_match cs ctx w w')
     /\
     (Matches (conditions ConditionNone cs) ctx w = (Return false, w')
      <-> exists pre x post w1,
            cs = pre ++ x :: post /\ none_match pre ctx w w1
            /\ Matches x ctx w1 = (Return true, w')))
  /\
  (forall (op : ConditionOp) ctx w,
     Matches (@conditions W op []) ctx w =
       (Panic (ErrorsNew "no condition"), w)).
Proof.
  split.
  - intros cs ctx w w' Hcs. destruct cs as [|x cs]; [congruence|].
    rewrite Matches_group_none.
    split; [apply range_none_true|apply range_none_false].
  - reflexivity.
Qed.

(** C9. When the first call on a fresh [Conditional] is [Or] or [And],
    the head node holds no condition and has a next node, whatever is
    called afterwards, and [Matches] returns true at once, in the world it
    was called in: no condition attached later is evaluated. *)
Theorem leading_operator_hides_chain
    (first : BuilderCall W) (calls : list (BuilderCall W)) ctx w :
  first = CallOr \/ first = CallAnd ->
  head_bypassed (build (first :: calls))
  /\ Conditional_Matches (build (first :: calls)) ctx w
     = Some (Return true, w).
Proof.
  intros Hfirst.
  assert (head_bypassed (build (first :: calls))) as Hby.
  { unfold build, build_from. simpl fold_left.
    apply head_bypassed_build_from.
    - apply well_formed_call, well_formed_new.
    - destruct Hfirst as [-> | ->]; (split; [simpl; lia|]);
        eexists _, _; simpl; eauto. }
  split; [exact Hby|]. now apply head_bypassed_matches.
Qed.

(** C10. The chain [a.or(b).and()] with no condition after the last
    operator: if [a] returns true, [Matches] returns true and no panic is
    raised; the panic of the dangling operator is raised when [a] returns
    false and the walk reaches the node of [b], before [b] is evaluated;
    a panic of [a] itself is passed on. *)
Theorem dangling_check_only_when_reached a b ctx w :
  a <> nilCondition -> b <> nilCondition ->
  (forall w1, Matches a ctx w = (Return true, w1) ->
     Conditional_Matches
       (And (OnCondition (Or (OnCondition NewConditional a)) b)) ctx w
     = Some (Return true, w1))
  /\
  (forall w1, Matches a ctx w = (Return false, w1) ->
     Conditional_Matches
       (And (OnCondition (Or (OnCondition NewConditional a)) b)) ctx w
     = Some (Panic (ErrorsNew "last op need a cond triggered"), w1))
  /\
  (forall e w1, Matches a ctx w = (Panic e, w1) ->
     Conditional_Matches
       (And (OnCondition (Or (OnCondition NewConditional a)) b)) ctx w
     = Some (Panic e, w1)).
Proof.
  intros Ha Hb.
  pose proof (is_nil_false _ Ha) as Ha'.
  pose proof (is_nil_false _ Hb) as Hb'.
  change (And (OnCondition (Or (OnCondition NewConditional a)) b))
    with {| store := [ {| node_cond := a; node_op := ConditionOr;
                          node_next := Some 1 |};
                       {| node_cond := b; node_op := ConditionAnd;
                          node_next := Some 2 |};
                       @newConditionNode W ];
            head := 0; curr := 2 |}.
  unfold Conditional_Matches. cbn [store head length].
  erewrite conditionNode_Matches_step;
    [|reflexivity|exact Ha'|].
    2: { etransitivity; [eapply next_lacks_cond_link; reflexivity|].
         cbn [node_cond]. now rewrite Hb'. }
  cbn [node_cond node_next node_op]. simpl (_ =? _)%Z. cbv iota.
  split; [|split].
  - intros w1 ->. reflexivity.
  - intros w1 ->.
    eapply conditionNode_Matches_dangling with (q := 2);
      (reflexivity || exact Hb').
  - intros e w1 ->. reflexivity.
Qed.

End Claims.

(** ** The theorems at work on the test doubles *)

Lemma chain_node_short_circuit_witness :
  conditionNode_Matches 1 (store (Demo.two true CallOr false)) 0 Demo.ctx 0
    = Some (Return true, 1)
  /\ conditionNode_Matches 2 (store (Demo.two false CallOr true)) 0 Demo.ctx 0
    = conditionNode_Matches 1 (store (Demo.two false CallOr true)) 1
        Demo.ctx 1
  /\ conditionNode_Matches 2 (store (Demo.two true CallAnd false)) 0
       Demo.ctx 0
    = conditionNode_Matches 1 (store (Demo.two true CallAnd false)) 1
        Demo.ctx 1
  /\ conditionNode_Matches 1 (store (Demo.two false CallAnd true)) 0
       Demo.ctx 0
    = Some (Return false, 1).
Proof.
  split; [|split; [|split]].
  - refine (proj1 (proj1 (chain_node_short_circuit
              (store (Demo.two true CallOr false)) 0 1 _ _ Demo.ctx 0 0
              eq_refl _ eq_refl eq_refl _) eq_refl) 1 eq_refl);
      discriminate.
  - refine (proj2 (proj1 (chain_node_short_circuit
              (store (Demo.two false CallOr true)) 0 1 _ _ Demo.ctx 0 1
              eq_refl _ eq_refl eq_refl _) eq_refl) 1 eq_refl);
      discriminate.
  - refine (proj1 (proj2 (chain_node_short_circuit
              (store (Demo.two true CallAnd false)) 0 1 _ _ Demo.ctx 0 1
              eq_refl _ eq_refl eq_refl _) eq_refl) 1 eq_refl);
      discriminate.
  - refine (proj2 (proj2 (chain_node_short_circuit
              (store (Demo.two false CallAnd true)) 0 1 _ _ Demo.ctx 0 0
              eq_refl _ eq_refl eq_refl _) eq_refl) 1 eq_refl);
      discriminate.
Defined.

Lemma dangling_operator_panics_witness :
  Conditional_Matches (And (OnCondition NewConditional (Demo.counting true)))
    Demo.ctx 0
    = Some (Panic (ErrorsNew "last op need a cond triggered"), 0)
  /\ conditionNode_Matches 1 Demo.dangling_store 0 Demo.ctx 0
    = Some (Panic (ErrorsNew "last op need a cond triggered"), 0).
Proof.
  split.
  - apply (proj1 dangling_operator_panics). discriminate.
  - refine (proj2 dangling_operator_panics Demo.dangling_store 0 1 _ _
              Demo.ctx 0 0 eq_refl _ eq_refl eq_refl eq_refl).
    discriminate.
Defined.

Lemma propertyValue_Matches_cases_witness :
  Matches (propertyValueCondition "absent" (VInt 1)) Demo.ctx 0
    = (Return false, 0)
  /\ (exists r,
        Matches (propertyValueCondition "threads" (VInt 8)) Demo.ctx 0
          = (Return r, 0) /\ r = true)
  /\ Matches (propertyValueCondition "threads" (VInt64 8)) Demo.ctx 0
    = (Return false, 0)
  /\ Matches (propertyValueCondition "tags" (VSlice "interface {}" []))
       Demo.ctx 0
    = (Panic (Runtime UncomparableType), 0)
  /\ Matches (propertyValueCondition "tags" (VSlice "string" []))
       Demo.ctx 0
    = (Return false, 0)
  /\ Matches (propertyValueCondition "name" (VString "go")) Demo.ctx 0
    = (Return true, 0)
  /\ Matches (propertyValueCondition "threads" (VString "8")) Demo.ctx 0
    = (Return false, 0)
  /\ Matches (propertyValueCondition "threads" (VString "$>=4")) Demo.ctx 0
    = (Return true, 0)
  /\ Matches (propertyValueCondition "threads" (VString "$>=9")) Demo.ctx 0
    = (Return false, 0)
  /\ Matches (propertyValueCondition "threads" (VString "$>")) Demo.ctx 0
    = (Panic (EvalError "syntax error"), 0)
  /\ Matches (propertyValueCondition "mode" (VString "$")) Demo.ctx 0
    = (Panic (Runtime NilDereference), 0).
Proof.
  repeat apply conj.
  - exact (proj1 (propertyValue_Matches_cases
                    Demo.ctx "absent" (VInt 1) 0) eq_refl).
  - destruct (proj1 (proj2 (proj1 (proj2 (propertyValue_Matches_cases
                Demo.ctx "threads" (VInt 8) 0)) eq_refl eq_refl))
                eq_refl eq_refl) as (r & Hm & Hr).
    exists r. split; [exact Hm|]. apply Hr. reflexivity.
  - refine (proj1 (proj1 (proj2 (propertyValue_Matches_cases
              Demo.ctx "threads" (VInt64 8) 0)) eq_refl eq_refl) _).
    discriminate.
  - exact (proj2 (proj2 (proj1 (proj2 (propertyValue_Matches_cases
             Demo.ctx "tags" (VSlice "interface {}" []) 0))
             eq_refl eq_refl)) eq_refl eq_refl).
  - refine (proj1 (proj1 (proj2 (propertyValue_Matches_cases
              Demo.ctx "tags" (VSlice "string" []) 0)) eq_refl eq_refl) _).
    discriminate.
  - exact (proj1 (proj2 (proj2 (propertyValue_Matches_cases
                    Demo.ctx "name" (VString "go") 0)))
             eq_refl "go" eq_refl eq_refl).
  - exact (proj1 (proj2 (proj2 (propertyValue_Matches_cases
                    Demo.ctx "threads" (VString "8") 0)))
             eq_refl "8" eq_refl eq_refl).
  - pose proof (proj2 (proj2 (proj2 (propertyValue_Matches_cases
                  Demo.ctx "threads" (VString "$>=4") 0)))
                  eq_refl "$>=4" eq_refl eq_refl)
      as (_ & _ & _ & Htrue & _).
    exact (proj2 Htrue eq_refl).
  - pose proof (proj2 (proj2 (proj2 (propertyValue_Matches_cases
                  Demo.ctx "threads" (VString "$>=9") 0)))
                  eq_refl "$>=9" eq_refl eq_refl)
      as (_ & _ & _ & _ & Hfalse).
    apply (proj2 Hfalse). exists "false". split; [reflexivity|discriminate].
  - pose proof (proj2 (proj2 (proj2 (propertyValue_Matches_cases
                  Demo.ctx "threads" (VString "$>") 0)))
                  eq_refl "$>" eq_refl eq_refl)
      as (_ & Hfailed & _).
    exact (Hfailed "syntax error" eq_refl).
  - pose proof (proj2 (proj2 (proj2 (propertyValue_Matches_cases
                  Demo.ctx "mode" (VString "$") 0)))
                  eq_refl "$" eq_refl eq_refl)
      as (_ & _ & Hnil & _).
    exact (Hnil eq_refl).
Defined.

Lemma OnCondition_twice_is_conjunction_witness :
  curr (OnCondition (OnCondition NewConditional (Demo.counting true))
          (Demo.counting false)) = 1
  /\ Conditional_Matches
       (OnCondition (OnCondition NewConditional (Demo.counting true))
          (Demo.counting false)) Demo.ctx 0
     = Some (Return false, 2)
  /\ Conditional_Matches
       (OnCondition (OnCondition NewConditional (Demo.counting false))
          (Demo.counting true)) Demo.ctx 0
     = Some (Return false, 1).
Proof.
  split; [|split].
  - refine (proj1 (proj2 (proj1 OnCondition_twice_is_conjunction
              (OnCondition NewConditional (Demo.counting true)) _
              (Demo.counting false) eq_refl _))).
    discriminate.
  - refine (proj2 OnCondition_twice_is_conjunction
              (Demo.counting true) (Demo.counting false) Demo.ctx 0 _ _);
      discriminate.
  - refine (proj2 OnCondition_twice_is_conjunction
              (Demo.counting false) (Demo.counting true) Demo.ctx 0 _ _);
      discriminate.
Defined.

Lemma group_none_and_empty_group_witness :
  Matches (conditions ConditionNone
             [Demo.counting false; Demo.counting false]) Demo.ctx 0
    = (Return true, 2)
  /\ Matches (conditions ConditionNone
                [Demo.counting false; Demo.counting true;
                 Demo.counting false]) Demo.ctx 0
    = (Return false, 2).
Proof.
  split.
  - refine (proj2 (proj1 (proj1 group_none_and_empty_group
              [Demo.counting false; Demo.counting false] Demo.ctx 0 2 _))
              _); [discriminate|].
    exists 1. split; [reflexivity|].
    exists 2. split; reflexivity.
  - refine (proj2 (proj2 (proj1 group_none_and_empty_group
              [Demo.counting false; Demo.counting true; Demo.counting false]
              Demo.ctx 0 2 _)) _); [discriminate|].
    exists [Demo.counting false], (Demo.counting true),
      [Demo.counting false], 1.
    split; [reflexivity|]. split; [|reflexivity].
    exists 1. split; reflexivity.
Defined.

Lemma leading_operator_hides_chain_witness :
  Conditional_Matches
    (build [CallAnd; CallOnCondition (Demo.counting false)]) Demo.ctx 0
    = Some (Return true, 0)
  /\ Conditional_Matches
       (build [CallOr; CallOnCondition (Demo.counting false)]) Demo.ctx 0
     = Some (Return true, 0).
Proof.
  split.
  - exact (proj2 (leading_operator_hides_chain CallAnd
                    [CallOnCondition (Demo.counting false)] Demo.ctx 0
                    (or_intror eq_refl))).
  - exact (proj2 (leading_operator_hides_chain CallOr
                    [CallOnCondition (Demo.counting false)] Demo.ctx 0
                    (or_introl eq_refl))).
Defined.

Lemma dangling_check_only_when_reached_witness :
  Conditional_Matches
    (And (OnCondition (Or (OnCondition NewConditional (Demo.counting true)))
            (Demo.counting false))) Demo.ctx 0
    = Some (Return true, 1)
  /\ Conditional_Matches
       (And (OnCondition (Or (OnCondition NewConditional
                                (Demo.counting false)))
               (Demo.counting true))) Demo.ctx 0
     = Some (Panic (ErrorsNew "last op need a cond triggered"), 1).
Proof.
  split.
  - refine (proj1 (dangling_check_only_when_reached
              (Demo.counting true) (Demo.counting false) Demo.ctx 0 _ _)
              1 eq_refl); discriminate.
  - refine (proj1 (proj2 (dangling_check_only_when_reached
              (Demo.counting false) (Demo.counting true) Demo.ctx 0 _ _))
              1 eq_refl); discriminate.
Defined.

(** ** Further properties of the conditions and of the builder *)

Section GroupLoops.

Context {W : Type} `{Externals}.

Implicit Types (a b d x : Condition W) (cs : list (Condition W))
  (ctx : SpringContext) (w : W).

Lemma Matches_group_or x cs ctx :
  Matches (conditions ConditionOr (x :: cs)) ctx =
    range_or (fun x0 : Condition W => Matches x0 ctx) (x :: cs).
Proof. reflexivity. Qed.

Lemma Matches_group_and x cs ctx :
  Matches (conditions ConditionAnd (x :: cs)) ctx =
    range_and (fun x0 : Condition W => Matches x0 ctx) (x :: cs).
Proof. reflexivity. Qed.

(** The loop of NONE is the loop of OR with the answer negated. *)
Lemma range_none_negates_or (f : Condition W -> Eff W bool) cs :
  forall w,
    range_none f cs w = bind (range_or f cs) (fun r => ret (negb r)) w.
Proof.
  induction cs as [|x cs IH]; intros w; [reflexivity|].
  simpl. unfold bind.
  destruct (f x w) as [[[|]|e] w1]; try reflexivity.
  rewrite IH. reflexivity.
Qed.

(** The loop of AND is the loop of OR over the negated members, with the
    answer negated. *)
Lemma range_and_negates_or_not cs ctx :
  forall w,
    range_and (fun x0 : Condition W => Matches x0 ctx) cs w =
      bind (range_or (fun x0 : Condition W => Matches x0 ctx)
              (map notCondition cs))
           (fun r => ret (negb r)) w.
Proof.
  induction cs as [|x cs IH]; intros w; [reflexivity|].
  simpl. unfold bind.
  destruct (Matches x ctx w) as [[[|]|e] w1]; simpl; try reflexivity.
  rewrite IH. reflexivity.
Qed.

Lemma range_or_answer cs ctx (r : bool) :
  forall w w',
    range_or (fun x0 : Condition W => Matches x0 ctx) cs w = (Return r, w')
    <-> range_none (fun x0 : Condition W => Matches x0 ctx) cs w
        = (Return (negb r), w').
Proof.
  intros w w'. rewrite range_none_negates_or. unfold bind.
  destruct (range_or _ cs w) as [[r0|e] w1]; unfold ret.
  - split.
    + now intros [= -> ->].
    + intros [= Hr ->]. apply (f_equal negb) in Hr.
      rewrite !Bool.negb_involutive in Hr. now subst.
  - split; discriminate.
Qed.

Lemma range_and_true cs ctx :
  forall w w',
    range_and (fun x0 : Condition W => Matches x0 ctx) cs w
      = (Return true, w')
    <-> all_match cs ctx w w'.
Proof.
  induction cs as [|x cs IH]; intros w w'; simpl.
  - unfold ret. split; [now intros [= <-]|now intros ->].
  - unfold bind.
    destruct (Matches x ctx w) as [[[|]|e] w1] eqn:Hm; simpl.
    + rewrite IH. split.
      * intros Hn. exists w1. auto.
      * intros (w2 & [= <-] & Hn). exact Hn.
    + split; [discriminate|]. intros (w2 & Hw2 & _). discriminate.
    + split; [discriminate|]. intros (w2 & Hw2 & _). discriminate.
Qed.

Lemma range_and_false cs ctx :
  forall w w',
    range_and (fun x0 : Condition W => Matches x0 ctx) cs w
      = (Return false, w')
    <-> exists pre x post w1,
          cs = pre ++ x :: post /\ all_match pre ctx w w1
          /\ Matches x ctx w1 = (Return false, w').
Proof.
  induction cs as [|x0 cs IH]; intros w w'; simpl.
  - unfold ret. split; [discriminate|].
    intros (pre & x & post & w1 & Heq & _). now destruct pre.
  - unfold bind.
    destruct (Matches x0 ctx w) as [[[|]|e] w1] eqn:Hm; simpl.
    + rewrite IH. split.
      * intros (pre & x & post & w2 & -> & Hn & Hx).
        exists (x0 :: pre), x, post, w2. simpl. eauto.
      * intros (pre & x & post & w2 & Heq & Hn & Hx).
        destruct pre as [|y pre]; simpl in *.
        -- injection Heq as <- <-. subst w2. congruence.
        -- injection Heq as <- ->. destruct Hn as (w3 & Hy & Hn).
           assert (w3 = w1) as -> by congruence.
           exists pre, x, post, w2. auto.
    + unfold ret. split.
      * intros [= <-]. exists [], x0, cs, w. simpl. auto.
      * intros (pre & x & post & w2 & Heq & Hn & Hx).
        destruct pre as [|y pre]; simpl in *.
        -- injection Heq as <- <-. subst w2. congruence.
        -- injection Heq as <- ->. destruct Hn as (w3 & Hy & _).
           congruence.
    + split; [discriminate|].
      intros (pre & x & post & w2 & Heq & Hn & Hx).
      destruct pre as [|y pre]; simpl in *.
      * injection Heq as <- <-. subst w2. congruence.
      * injection Heq as <- ->. destruct Hn as (w3 & Hy & _).
        congruence.
Qed.

(** X1. [notCondition.Matches]: the answer of the wrapped condition is negated
    in the world it left, its panic is passed on, and negating twice gives
    the wrapped condition back. *)
Theorem notCondition_negates a ctx w :
  Matches (notCondition a) ctx w =
    match Matches a ctx w with
    | (Return r, w1) => (Return (negb r), w1)
    | (Panic e, w1) => (Panic e, w1)
    end
  /\ Matches (notCondition (notCondition a)) ctx w = Matches a ctx w.
Proof.
  split; [reflexivity|].
  simpl. unfold bind, ret.
  destruct (Matches a ctx w) as [[r|e] w1]; [|reflexivity].
  now rewrite Bool.negb_involutive.
Qed.

(** X2. [profileCondition.Matches] never panics and leaves the world alone; it
    answers true exactly when the profile is empty or is the profile of the
    context. *)
Theorem profileCondition_wildcard (profile : string) ctx w :
  exists r,
    Matches (@profileCondition W profile) ctx w = (Return r, w)
    /\ (r = true <-> profile = "" \/ profile = GetProfile ctx).
Proof.
  simpl.
  destruct (String.eqb_spec profile "") as [He|He];
    destruct (String.eqb_spec profile (GetProfile ctx)) as [Hp|Hp]; simpl;
    eexists; (split; [reflexivity|]); intuition congruence.
Qed.

(** X3. A group under NONE is the negation of the same group under OR: same
    answer negated, same panic, same world, also for the empty group. *)
Theorem group_none_is_not_any cs ctx w :
  Matches (conditions ConditionNone cs) ctx w =
    Matches (notCondition (conditions ConditionOr cs)) ctx w.
Proof.
  destruct cs as [|x cs]; [reflexivity|].
  rewrite Matches_group_none.
  change (Matches (notCondition (conditions ConditionOr (x :: cs))) ctx w)
    with (bind (Matches (conditions ConditionOr (x :: cs)) ctx)
            (fun r => ret (negb r)) w).
  rewrite Matches_group_or. apply range_none_negates_or.
Qed.

(** X4. A group under AND is the negation of the group of the negated members
    under OR: same answer, same panic, same world, also for the empty
    group. *)
Theorem group_all_is_not_any_not cs ctx w :
  Matches (conditions ConditionAnd cs) ctx w =
    Matches (notCondition (conditions ConditionOr (map notCondition cs)))
      ctx w.
Proof.
  destruct cs as [|x cs]; [reflexivity|].
  rewrite Matches_group_and.
  change (Matches (notCondition
                     (conditions ConditionOr (map notCondition (x :: cs))))
            ctx w)
    with (bind (Matches (conditions ConditionOr
                           (notCondition x :: map notCondition cs)) ctx)
            (fun r => ret (negb r)) w).
  rewrite Matches_group_or. apply range_and_negates_or_not.
Qed.

(** X5. A non-empty group under OR answers true exactly when some member
    returns true after all the members before it returned false, in the
    world that member left, and false exactly when every member returns
    false. *)
Theorem group_any_semantics cs ctx w w' :
  cs <> [] ->
  (Matches (conditions ConditionOr cs) ctx w = (Return true, w')
   <-> exists pre x post w1,
         cs = pre ++ x :: post /\ none_match pre ctx w w1
         /\ Matches x ctx w1 = (Return true, w'))
  /\
  (Matches (conditions ConditionOr cs) ctx w = (Return false, w')
   <-> none_match cs ctx w w').
Proof.
  intros Hcs. destruct cs as [|x cs]; [congruence|].
  rewrite Matches_group_or. split.
  - rewrite range_or_answer. apply range_none_false.
  - rewrite range_or_answer. apply range_none_true.
Qed.

(** X6. A non-empty group under AND answers true exactly when every member
    returns true, and false exactly when some member returns false after
    all the members before it returned true, in the world that member
    left. *)
Theorem group_all_semantics cs ctx w w' :
  cs <> [] ->
  (Matches (conditions ConditionAnd cs) ctx w = (Return true, w')
   <-> all_match cs ctx w w')
  /\
  (Matches (conditions ConditionAnd cs) ctx w = (Return false, w')
   <-> exists pre x post w1,
         cs = pre ++ x :: post /\ all_match pre ctx w w1
         /\ Matches x ctx w1 = (Return false, w')).
Proof.
  intros Hcs. destruct cs as [|x cs]; [congruence|].
  rewrite Matches_group_and.
  split; [apply range_and_true|apply range_and_false].
Qed.

(** X7. A non-empty group whose operator is none of the three defined panics
    with "error condition op mode" and evaluates no member. *)
Theorem group_unknown_operator_panics (op : ConditionOp) cs ctx w :
  cs <> [] ->
  op <> ConditionOr -> op <> ConditionAnd -> op <> ConditionNone ->
  Matches (conditions op cs) ctx w =
    (Panic (ErrorsNew "error condition op mode"), w).
Proof.
  intros Hcs Hor Hand Hnone. destruct cs as [|x cs]; [congruence|].
  apply Z.eqb_neq in Hor, Hand, Hnone.
  cbn [Matches length Nat.eqb]. now rewrite Hor, Hand, Hnone.
Qed.

End GroupLoops.

Section BuilderShape.

Context {W : Type} `{Externals}.

Implicit Types (c : Conditional W) (h : list (conditionNode W))
  (n : conditionNode W) (a b d x : Condition W) (p q : addr)
  (ctx : SpringContext) (w : W).

Lemma linear_chain_well_formed c : linear_chain c -> well_formed c.
Proof.
  intros (Hh & Hc & Hn). split; [lia|]. split; [lia|].
  intros i n q Hi Hq. pose proof (lookup_lt_Some _ _ _ Hi) as Hlt.
  destruct (Hn i n Hi) as [Hmid Hlast].
  destruct (decide (S i = length (store c))) as [He|He].
  - rewrite (Hlast He) in Hq. discriminate.
  - destruct Hmid as [Hnext _]; [lia|]. rewrite Hnext in Hq.
    injection Hq as <-. lia.
Qed.

Lemma linear_chain_new : linear_chain (@NewConditional W).
Proof.
  split; [reflexivity|]. split; [reflexivity|].
  intros i n Hi. simpl in *.
  destruct i as [|i]; simpl in Hi; [|destruct i; discriminate].
  injection Hi as <-. split; [lia|reflexivity].
Qed.

Lemma linear_chain_Or c : linear_chain c -> linear_chain (Or c).
Proof.
  intros Hlin. pose proof (linear_chain_well_formed _ Hlin) as (_ & Hc & _).
  destruct Hlin as (Hh & Hcurr & Hn).
  split; [exact Hh|]. split; [now rewrite Or_length|].
  intros i n Hi. rewrite Or_length.
  pose proof (lookup_lt_Some _ _ _ Hi) as Hlt. rewrite Or_length in Hlt.
  destruct (decide (i = curr c)) as [->|Hne].
  - destruct (lookup_lt_is_Some_2 _ _ Hc) as [n0 Hn0].
    rewrite (Or_lookup_curr _ _ Hn0) in Hi. injection Hi as <-. simpl.
    split; [|lia]. intros _. rewrite <- Hcurr. auto.
  - destruct (decide (i = length (store c))) as [->|Hne'].
    + rewrite Or_lookup_new in Hi by exact Hc. injection Hi as <-.
      split; [lia|reflexivity].
    + rewrite Or_lookup_other in Hi by lia.
      destruct (Hn i n Hi) as [Hmid _].
      split; [intros _; apply Hmid; lia|lia].
Qed.

Lemma linear_chain_And c : linear_chain c -> linear_chain (And c).
Proof.
  intros Hlin. pose proof (linear_chain_well_formed _ Hlin) as (_ & Hc & _).
  destruct Hlin as (Hh & Hcurr & Hn).
  split; [exact Hh|]. split; [now rewrite And_length|].
  intros i n Hi. rewrite And_length.
  pose proof (lookup_lt_Some _ _ _ Hi) as Hlt. rewrite And_length in Hlt.
  destruct (decide (i = curr c)) as [->|Hne].
  - destruct (lookup_lt_is_Some_2 _ _ Hc) as [n0 Hn0].
    rewrite (And_lookup_curr _ _ Hn0) in Hi. injection Hi as <-. simpl.
    split; [|lia]. intros _. rewrite <- Hcurr. auto.
  - destruct (decide (i = length (store c))) as [->|Hne'].
    + rewrite And_lookup_new in Hi by exact Hc. injection Hi as <-.
      split; [lia|reflexivity].
    + rewrite And_lookup_other in Hi by lia.
      destruct (Hn i n Hi) as [Hmid _].
      split; [intros _; apply Hmid; lia|lia].
Qed.

Lemma linear_chain_set_cond c x :
  linear_chain c ->
  linear_chain {| store := alter (set_cond x) (curr c) (store c);
                  head := head c; curr := curr c |}.
Proof.
  intros (Hh & Hcurr & Hn).
  split; [exact Hh|]. split; [simpl; now rewrite length_alter|].
  intros i n Hi. simpl in *. rewrite length_alter.
  destruct (decide (curr c = i)) as [He|Hne].
  - rewrite He, list_lookup_alter_eq in Hi.
    destruct (store c !! i) as [n0|] eqn:Hi0; simpl in Hi; [|discriminate].
    injection Hi as <-. exact (Hn i n0 Hi0).
  - rewrite list_lookup_alter_ne in Hi by exact Hne. exact (Hn i n Hi).
Qed.

Lemma linear_chain_OnCondition c x :
  linear_chain c -> linear_chain (OnCondition c x).
Proof.
  intros Hlin. unfold OnCondition. apply linear_chain_set_cond.
  destruct (curr_holds_cond c); [now apply linear_chain_And|exact Hlin].
Qed.

Lemma linear_chain_call c (bc : BuilderCall W) :
  linear_chain c -> linear_chain (call c bc).
Proof.
  destruct bc; simpl;
    auto using linear_chain_Or, linear_chain_And, linear_chain_OnCondition.
Qed.

Lemma linear_chain_build_from (calls : list (BuilderCall W)) :
  forall c, linear_chain c -> linear_chain (build_from c calls).
Proof.
  induction calls as [|bc calls IH]; intros c Hlin; [exact Hlin|].
  apply IH, linear_chain_call, Hlin.
Qed.

Lemma linear_chain_build (calls : list (BuilderCall W)) :
  linear_chain (build calls).
Proof. apply linear_chain_build_from, linear_chain_new. Qed.

Lemma store_grows_call c (bc : BuilderCall W) :
  length (store c) <= length (store (call c bc)).
Proof.
  destruct bc; cbn [call].
  - rewrite Or_length. lia.
  - rewrite And_length. lia.
  - unfold OnCondition; cbn [store]. rewrite length_alter.
    destruct (curr_holds_cond c); [rewrite And_length|]; lia.
Qed.

Lemma store_grows_build_from (calls : list (BuilderCall W)) :
  forall c, length (store c) <= length (store (build_from c calls)).
Proof.
  induction calls as [|bc calls IH]; intros c; [simpl; lia|].
  etransitivity; [apply (store_grows_call c bc)|apply IH].
Qed.

Lemma Empty_linear_chain c :
  linear_chain c -> (Empty c = true <-> length (store c) = 1).
Proof.
  intros (Hh & Hcurr & _). unfold Empty. rewrite Nat.eqb_eq. lia.
Qed.

(** X9. Whatever is called on it, a [Conditional] made by [NewConditional]
    keeps one chain in its store: [head] is the first node, [curr] is the
    last and has no successor, and every other node is linked to the node
    allocated right after it by [ConditionOr] or [ConditionAnd]. So the
    walk of a built chain never meets an operator it does not know. *)
Theorem built_store_is_linear_chain
    (calls : list (BuilderCall W)) (i : addr) n :
  head (build calls) = 0
  /\ S (curr (build calls)) = length (store (build calls))
  /\ (store (build calls) !! i = Some n ->
      (S i < length (store (build calls)) ->
         node_next n = Some (S i)
         /\ (node_op n = ConditionOr \/ node_op n = ConditionAnd))
      /\ (S i = length (store (build calls)) -> node_next n = None)).
Proof.
  destruct (linear_chain_build calls) as (Hh & Hc & Hn).
  split; [exact Hh|]. split; [exact Hc|]. apply Hn.
Qed.

(** X10. [Empty] answers true exactly while the store has the single node
    [NewConditional] allocated, and once it answers false it answers false
    after every further call. *)
Theorem Empty_false_is_final (calls more : list (BuilderCall W)) :
  (Empty (build calls) = true <-> length (store (build calls)) = 1)
  /\ (Empty (build calls) = false ->
      Empty (build (calls ++ more)) = false).
Proof.
  split; [apply Empty_linear_chain, linear_chain_build|].
  intros Hfalse.
  pose proof (Empty_linear_chain _ (linear_chain_build calls)) as Hc.
  pose proof (Empty_linear_chain _ (linear_chain_build (calls ++ more)))
    as Hm.
  assert (length (store (build calls)) <> 1) as Hlen.
  { intros Hone. apply Hc in Hone. congruence. }
  assert (length (store (build calls))
          <= length (store (build (calls ++ more)))) as Hle.
  { unfold build, build_from. rewrite fold_left_app.
    apply (store_grows_build_from more). }
  destruct (linear_chain_build calls) as (_ & Hcurr & _).
  destruct (Empty (build (calls ++ more))); [|reflexivity].
  assert (length (store (build (calls ++ more))) = 1) by now apply Hm.
  lia.
Qed.

(** X8. The default branch of the switch in [conditionNode.Matches]: at a node
    that holds a condition, is followed by a node that holds one, and
    carries an operator other than OR and AND, the condition is evaluated
    and, if it returns, the walk panics with "error condition op mode". *)
Theorem node_unknown_operator_panics h p q n n' ctx w (r : bool) w1 fuel :
  h !! p = Some n -> node_cond n <> nilCondition ->
  node_next n = Some q ->
  h !! q = Some n' -> node_cond n' <> nilCondition ->
  node_op n <> ConditionOr -> node_op n <> ConditionAnd ->
  Matches (node_cond n) ctx w = (Return r, w1) ->
  conditionNode_Matches (S fuel) h p ctx w =
    Some (Panic (ErrorsNew "error condition op mode"), w1).
Proof.
  intros Hp Hc Hq Hn' Hc' Hor Hand Hm.
  apply is_nil_false in Hc. apply is_nil_false in Hc'.
  apply Z.eqb_neq in Hor, Hand.
  rewrite (conditionNode_Matches_step _ _ _ _ _ _ Hp Hc).
  - now rewrite Hm, Hq, Hor, Hand.
  - rewrite (next_lacks_cond_link _ _ _ _ Hq Hn'). now rewrite Hc'.
Qed.

End BuilderShape.

Section ChainRefinement.

Context {W : Type} `{Externals}.

Implicit Types (c : Conditional W) (h pre : list (conditionNode W))
  (n : conditionNode W) (a b d x : Condition W) (p q k : addr)
  (rest : list (Link * Condition W)) (l : Link)
  (ctx : SpringContext) (w : W).

Lemma chain_nodes_length rest : forall k a,
  length (chain_nodes k a rest) = S (length rest).
Proof.
  induction rest as [|[l a1] rest IH]; intros k a; simpl; [reflexivity|].
  now rewrite IH.
Qed.

Lemma chain_nodes_head k a rest :
  exists o nx tl,
    chain_nodes k a rest =
      {| node_cond := a; node_op := o; node_next := nx |} :: tl.
Proof. destruct rest as [|[l a1] rest]; simpl; eauto. Qed.

(** What an operator call followed by [OnCondition] does to the nodes of a
    chain. *)
Lemma chain_nodes_snoc rest : forall k a0 l a,
  alter (set_cond a) (S (length rest))
    (alter (set_next (Some (k + S (length rest)))) (length rest)
       (alter (set_op (link_op l)) (length rest)
          (chain_nodes k a0 rest ++ [newConditionNode])))
  = chain_nodes k a0 (rest ++ [(l, a)]).
Proof.
  induction rest as [|[l1 a1] rest IH]; intros k a0 l a.
  - simpl. now rewrite Nat.add_1_r.
  - simpl. f_equal.
    replace (k + S (S (length rest))) with (S k + S (length rest)) by lia.
    apply IH.
Qed.

Lemma chain_calls_snoc rest l a :
  chain_calls (rest ++ [(l, a)]) =
    chain_calls rest ++ [link_call l; CallOnCondition a].
Proof.
  induction rest as [|[l1 a1] rest IH]; simpl; [reflexivity|].
  now rewrite IH.
Qed.

(** The store the builder makes for [a0 l1 a1 l2 a2 ...]. *)
Lemma build_chain a0 rest :
  build (CallOnCondition a0 :: chain_calls rest) =
    {| store := chain_nodes 0 a0 rest; head := 0; curr := length rest |}.
Proof.
  induction rest as [|[l a] rest IH] using rev_ind; [reflexivity|].
  rewrite chain_calls_snoc, app_comm_cons.
  unfold build, build_from in *. rewrite fold_left_app, IH.
  rewrite length_app, Nat.add_1_r.
  set (c := {| store := chain_nodes 0 a0 rest; head := 0;
               curr := length rest |}).
  assert (curr c < length (store c)) as Hc
    by (simpl; rewrite chain_nodes_length; lia).
  assert (length (store c) = S (length rest)) as Hlen
    by (simpl; apply chain_nodes_length).
  cbn [fold_left call].
  assert (curr_holds_cond (call c (link_call l)) = false) as Hfresh.
  { unfold curr_holds_cond.
    destruct l; cbn [link_call call];
      [change (curr (Or c)) with (length (store c)); rewrite Or_lookup_new
      |change (curr (And c)) with (length (store c));
       rewrite And_lookup_new]; try exact Hc; reflexivity. }
  unfold OnCondition. rewrite Hfresh.
  rewrite <- (chain_nodes_snoc rest 0 a0 l a).
  destruct l; cbn [link_call call link_op]; unfold Or, And;
    cbn [store head curr]; rewrite Hlen; reflexivity.
Qed.

(** The walk over the nodes of a chain laid out behind [pre]. *)
Lemma walk_chain_nodes rest : forall pre a0 ctx w fuel,
  a0 <> nilCondition ->
  Forall (fun la => snd la <> nilCondition) rest ->
  length rest < fuel ->
  conditionNode_Matches fuel (pre ++ chain_nodes (length pre) a0 rest)
    (length pre) ctx w
  = Some (eval_chain a0 rest ctx w).
Proof.
  induction rest as [|[l a1] rest IH]; intros pre a0 ctx w fuel Ha Hrest Hf;
    (destruct fuel as [|fuel]; [lia|]).
  - cbn [chain_nodes eval_chain].
    rewrite (conditionNode_Matches_last fuel _ _
               {| node_cond := a0; node_op := 0%Z; node_next := None |});
      [reflexivity|apply list_lookup_middle; reflexivity
      |now apply is_nil_false|reflexivity].
  - cbn [chain_nodes eval_chain].
    apply Forall_cons in Hrest as [Ha1 Hrest]. cbn [snd] in Ha1.
    destruct (chain_nodes_head (S (length pre)) a1 rest)
      as (o & nx & tl & Hhead).
    set (n0 := {| node_cond := a0; node_op := link_op l;
                  node_next := Some (S (length pre)) |}).
    assert ((pre ++ n0 :: chain_nodes (S (length pre)) a1 rest)
              !! length pre = Some n0) as Hp
      by (apply list_lookup_middle; reflexivity).
    assert ((pre ++ n0 :: chain_nodes (S (length pre)) a1 rest)
              !! S (length pre)
            = Some {| node_cond := a1; node_op := o; node_next := nx |})
      as Hq.
    { rewrite Hhead, cons_middle, app_assoc.
      apply list_lookup_middle. rewrite length_app. simpl. lia. }
    rewrite (conditionNode_Matches_step fuel _ _ n0 ctx w Hp);
      [|now apply is_nil_false|].
    2: { rewrite (next_lacks_cond_link _ n0 (S (length pre)) _ eq_refl Hq).
         cbn [node_cond]. now rewrite (is_nil_false _ Ha1). }
    cbn [node_cond node_next node_op n0]. unfold bind.
    assert (forall w1,
              conditionNode_Matches fuel
                (pre ++ n0 :: chain_nodes (S (length pre)) a1 rest)
                (S (length pre)) ctx w1
              = Some (eval_chain a1 rest ctx w1)) as Hrec.
    { intros w1.
      replace (pre ++ n0 :: chain_nodes (S (length pre)) a1 rest)
        with ((pre ++ [n0])
                ++ chain_nodes (length (pre ++ [n0])) a1 rest)
        by (rewrite length_app, Nat.add_1_r, <- app_assoc; reflexivity).
      replace (S (length pre)) with (length (pre ++ [n0]))
        by (rewrite length_app; simpl; lia).
      apply IH; [exact Ha1|exact Hrest|simpl in Hf; lia]. }
    destruct (Matches a0 ctx w) as [[r|e] w1]; [|reflexivity].
    destruct l; cbn [link_op]; simpl (_ =? _)%Z; cbv iota;
      destruct r; try reflexivity; apply Hrec.
Qed.

Lemma built_chain_evaluates_right_nested_aux a0 rest ctx w :
  a0 <> nilCondition ->
  Forall (fun la => snd la <> nilCondition) rest ->
  Conditional_Matches (build (CallOnCondition a0 :: chain_calls rest)) ctx w
  = Some (eval_chain a0 rest ctx w).
Proof.
  intros Ha Hrest. rewrite build_chain. unfold Conditional_Matches.
  cbn [store head].
  apply (walk_chain_nodes rest [] a0 ctx w); [exact Ha|exact Hrest|].
  rewrite chain_nodes_length. lia.
Qed.

(** X12. The builder and the walk together: the chain built by
    [OnCondition(a0)] followed by operator calls, each followed by one
    [OnCondition], all with conditions that are not nil, evaluates as the
    expression [a0 l1 (a1 l2 (a2 ...))]: evaluation runs from left to right,
    the operators nest to the right without precedence, each one
    short-circuits, and no panic of the walk itself occurs. *)
Theorem built_chain_evaluates_right_nested a0 rest ctx w :
  a0 <> nilCondition ->
  Forall (fun la => snd la <> nilCondition) rest ->
  Conditional_Matches (build (CallOnCondition a0 :: chain_calls rest)) ctx w
  = Some (eval_chain a0 rest ctx w).
Proof.
  intros Ha Hrest. rewrite build_chain. unfold Conditional_Matches.
  cbn [store head].
  apply (walk_chain_nodes rest [] a0 ctx w); [exact Ha|exact Hrest|].
  rewrite chain_nodes_length. lia.
Qed.

(** X14. [OnCondition(nil)]: on a cursor that holds no condition it changes
    nothing; after a condition it still appends the implicit AND link and
    leaves the new node without a condition, so that [Matches] panics with
    the error of the dangling operator. *)
Theorem OnCondition_nil_edge :
  (forall c n,
     store c !! curr c = Some n -> node_cond n = nilCondition ->
     OnCondition c nilCondition = c)
  /\
  (forall a ctx w,
     a <> nilCondition ->
     Conditional_Matches
       (OnCondition (OnCondition NewConditional a) nilCondition) ctx w
     = Some (Panic (ErrorsNew "last op need a cond triggered"), w)).
Proof.
  split.
  - intros c n Hn Hnil.
    assert (curr_holds_cond c = false) as Hholds
      by (unfold curr_holds_cond; now rewrite Hn, Hnil).
    unfold OnCondition. rewrite Hholds. destruct c as [st hd cu].
    cbn [store head curr] in *. f_equal.
    apply list_eq. intros i. rewrite list_lookup_alter.
    destruct (decide (cu = i)) as [<-|Hne]; [|reflexivity].
    rewrite Hn. simpl. destruct n as [nc no nn]. simpl in Hnil.
    now subst nc.
  - intros a ctx w Ha.
    pose proof (is_nil_false _ Ha) as Ha'.
    assert (OnCondition (OnCondition NewConditional a) nilCondition =
            {| store := [ {| node_cond := a; node_op := ConditionAnd;
                             node_next := Some 1 |};
                          newConditionNode ];
               head := 0; curr := 1 |}) as ->.
    { unfold OnCondition at 1.
      replace (curr_holds_cond (OnCondition NewConditional a)) with true
        by (unfold curr_holds_cond; simpl; now rewrite Ha').
      reflexivity. }
    unfold Conditional_Matches.
    eapply conditionNode_Matches_dangling with (q := 1);
      (reflexivity || exact Ha').
Qed.

End ChainRefinement.

Section ImplicitAnd.

Context {W : Type} `{Externals}.

Implicit Types (c : Conditional W) (a b d x : Condition W)
  (ctx : SpringContext) (w : W).

Lemma curr_holds_after_OnCondition c a :
  well_formed c -> a <> nilCondition ->
  curr_holds_cond (OnCondition c a) = true.
Proof.
  intros Hwf Ha. unfold OnCondition.
  assert (well_formed (if curr_holds_cond c then And c else c)) as Hwf'.
  { destruct (curr_holds_cond c); [now apply well_formed_And|exact Hwf]. }
  destruct Hwf' as (_ & Hc & _).
  unfold curr_holds_cond at 1. cbn [store curr].
  rewrite list_lookup_alter_eq.
  destruct (lookup_lt_is_Some_2 _ _ Hc) as [n Hn]. rewrite Hn. simpl.
  now rewrite (is_nil_false _ Ha).
Qed.

Lemma curr_fresh_after_And c :
  well_formed c -> curr_holds_cond (And c) = false.
Proof.
  intros (_ & Hc & _). unfold curr_holds_cond.
  change (curr (And c)) with (length (store c)).
  now rewrite And_lookup_new.
Qed.

(** On a cursor that holds a condition, [OnCondition] is [And] followed by
    [OnCondition]. *)
Lemma OnCondition_implicit_And c a :
  well_formed c -> curr_holds_cond c = true ->
  OnCondition c a = OnCondition (And c) a.
Proof.
  intros Hwf Hholds. unfold OnCondition at 1. rewrite Hholds.
  unfold OnCondition. now rewrite (curr_fresh_after_And _ Hwf).
Qed.

Lemma implicit_And_build_from (conds : list (Condition W)) :
  forall c,
    well_formed c -> curr_holds_cond c = true ->
    Forall (fun a => a <> nilCondition) conds ->
    build_from c (map CallOnCondition conds) =
      build_from c (chain_calls (map (fun a => (LinkAnd, a)) conds)).
Proof.
  induction conds as [|a conds IH]; intros c Hwf Hholds Hconds;
    [reflexivity|].
  apply Forall_cons in Hconds as [Ha Hconds].
  cbn [map chain_calls link_call]. unfold build_from in *.
  cbn [fold_left call].
  rewrite (OnCondition_implicit_And _ _ Hwf Hholds).
  apply IH; [| |exact Hconds].
  - now apply well_formed_OnCondition, well_formed_And.
  - apply curr_holds_after_OnCondition; [|exact Ha].
    now apply well_formed_And.
Qed.

(** X13. Conditions attached one after the other with no operator call in
    between are conjoined: the chain evaluates them from left to right and
    stops at the first that returns false. *)
Theorem consecutive_conditions_are_conjoined a0
    (conds : list (Condition W)) ctx w :
  a0 <> nilCondition ->
  Forall (fun a => a <> nilCondition) conds ->
  Conditional_Matches (build (map CallOnCondition (a0 :: conds))) ctx w
  = Some (eval_chain a0 (map (fun a => (LinkAnd, a)) conds) ctx w).
Proof.
  intros Ha Hconds.
  assert (build (map CallOnCondition (a0 :: conds)) =
          build (CallOnCondition a0
                   :: chain_calls (map (fun a => (LinkAnd, a)) conds)))
    as ->.
  { unfold build, build_from. cbn [map fold_left].
    apply (implicit_And_build_from conds (call NewConditional
                                            (CallOnCondition a0))).
    - apply well_formed_call, well_formed_new.
    - apply curr_holds_after_OnCondition; [apply well_formed_new|exact Ha].
    - exact Hconds. }
  apply built_chain_evaluates_right_nested_aux; [exact Ha|].
  apply Forall_map. eapply Forall_impl; [exact Hconds|]. auto.
Qed.

End ImplicitAnd.

(** ** Properties of the binding of tags to parameters *)

Section BindingProperties.

Variable Atoi : string -> option Z.

Implicit Types (tag : string) (tags : list string)
  (s : list (list string)) (n i j k : Z) (v : bool).

Lemma slot_write_Done s i x s' :
  slot_write s i x = Done s' ->
  (0 <= i)%Z /\ Z.to_nat i < length s /\ s' = <[Z.to_nat i := x]> s.
Proof.
  unfold slot_write. destruct (Z.ltb_spec i 0); [discriminate|].
  destruct (Nat.ltb_spec (Z.to_nat i) (length s)); [|discriminate].
  intros [= <-]. auto.
Qed.

Lemma slot_write_in_range s i x :
  (0 <= i)%Z -> Z.to_nat i < length s ->
  slot_write s i x = Done (<[Z.to_nat i := x]> s).
Proof.
  intros Hi Hlt. unfold slot_write.
  destruct (Z.ltb_spec i 0); [lia|].
  destruct (Nat.ltb_spec (Z.to_nat i) (length s)); [reflexivity|lia].
Qed.

Lemma slot_append_Done s i t s' :
  slot_append s i t = Done s' ->
  exists old,
    (0 <= i)%Z /\ s !! Z.to_nat i = Some old
    /\ s' = <[Z.to_nat i := old ++ [t]]> s.
Proof.
  unfold slot_append, slot_read. destruct (Z.ltb_spec i 0); [discriminate|].
  destruct (s !! Z.to_nat i) as [old|] eqn:Hold; [|discriminate].
  simpl. intros Hw. apply slot_write_Done in Hw as (_ & _ & ->). eauto.
Qed.

Lemma slot_append_in_range s i t old :
  (0 <= i)%Z -> s !! Z.to_nat i = Some old ->
  slot_append s i t = Done (<[Z.to_nat i := old ++ [t]]> s).
Proof.
  intros Hi Hold. unfold slot_append, slot_read.
  destruct (Z.ltb_spec i 0); [lia|]. rewrite Hold. simpl.
  apply slot_write_in_range; [exact Hi|exact (lookup_lt_Some _ _ _ Hold)].
Qed.

(** The two loop bodies in terms of [tag_index] and [tag_rest]. *)
Lemma indexed_step_eq n v s k tag :
  indexed_step Atoi n v s k tag =
    match tag_index Atoi tag with
    | None => Failed (LoggerPanic (should_have_index tag))
    | Some i =>
        if (i <? 0)%Z || (n <=? i)%Z
        then Failed (LoggerPanic (error_indexed_tag tag))
        else if v && (i =? n - 1)%Z
             then slot_append s i (tag_rest tag)
             else slot_write s i [tag_rest tag]
    end.
Proof.
  unfold indexed_step, tag_index, tag_rest.
  destruct (Z.leb_spec (strings_Index tag ":") 0) as [Hle|Hgt];
    destruct (Z.ltb_spec 0 (strings_Index tag ":")); try lia; reflexivity.
Qed.

Lemma plain_step_eq n v s k tag :
  plain_step Atoi n v s k tag =
    match tag_index Atoi tag with
    | Some _ => Failed (LoggerPanic (should_not_have_index tag))
    | None =>
        if v && (n - 1 <=? k)%Z
        then slot_append s (n - 1) tag
        else slot_write s k [tag]
    end.
Proof.
  unfold plain_step, tag_index.
  destruct (0 <? strings_Index tag ":")%Z; [|reflexivity].
  now destruct (Atoi _).
Qed.

Lemma first_indexed_eq tag tags :
  first_indexed Atoi (tag :: tags) =
    match tag_index Atoi tag with
    | Some _ => true
    | None => false
    end.
Proof.
  unfold first_indexed, tag_index.
  destruct (String.eqb_spec tag "") as [->|_]; [reflexivity|]. simpl.
  now destruct (0 <? strings_Index tag ":")%Z.
Qed.

Lemma indexed_step_length n v s k tag s' :
  indexed_step Atoi n v s k tag = Done s' -> length s' = length s.
Proof.
  rewrite indexed_step_eq. destruct (tag_index Atoi tag) as [i|];
    [|discriminate].
  destruct ((i <? 0)%Z || (n <=? i)%Z); [discriminate|].
  destruct (v && (i =? n - 1)%Z); intros Hs.
  - apply slot_append_Done in Hs as (old & _ & _ & ->).
    apply length_insert.
  - apply slot_write_Done in Hs as (_ & _ & ->). apply length_insert.
Qed.

Lemma plain_step_length n v s k tag s' :
  plain_step Atoi n v s k tag = Done s' -> length s' = length s.
Proof.
  rewrite plain_step_eq. destruct (tag_index Atoi tag); [discriminate|].
  destruct (v && (n - 1 <=? k)%Z); intros Hs.
  - apply slot_append_Done in Hs as (old & _ & _ & ->).
    apply length_insert.
  - apply slot_write_Done in Hs as (_ & _ & ->). apply length_insert.
Qed.

Lemma range_tags_invariant
    (step : list (list string) -> Z -> string -> arg_outcome (list (list string)))
    (P : list (list string) -> Prop) tags :
  (forall s k tag s', P s -> step s k tag = Done s' -> P s') ->
  forall k s s', P s -> range_tags step k tags s = Done s' -> P s'.
Proof.
  intros Hstep. induction tags as [|tag tags IH]; intros k s s' HP Hr.
  - injection Hr as <-. exact HP.
  - simpl in Hr. destruct (step s k tag) as [s1|] eqn:Hs; [|discriminate].
    simpl in Hr. exact (IH _ _ _ (Hstep _ _ _ _ HP Hs) Hr).
Qed.

(** What a successful run of the constructor went through. *)
Lemma newFnStringBindingArg_Done fnType0 wr tags r :
  newFnStringBindingArg Atoi fnType0 wr tags = Done r ->
  let n := numIn_of fnType0 wr in
  (0 <= n)%Z /\ fnType r = fnType0 /\ withReceiver r = wr /\
  (tags = [] /\ fnTags r = replicate (Z.to_nat n) []
   \/ tags <> [] /\ first_indexed Atoi tags = true /\
      range_tags (indexed_step Atoi n (IsVariadic fnType0)) 0 tags
        (replicate (Z.to_nat n) []) = Done (fnTags r)
   \/ tags <> [] /\ first_indexed Atoi tags = false /\
      range_tags (plain_step Atoi n (IsVariadic fnType0)) 0 tags
        (replicate (Z.to_nat n) []) = Done (fnTags r)).
Proof.
  unfold newFnStringBindingArg, numIn_of, make_fnTags.
  set (n := (Z.of_nat (NumIn fnType0) - (if wr then 1 else 0))%Z).
  destruct (Z.ltb_spec n 0) as [|Hn]; [discriminate|]. cbn [arg_bind].
  destruct tags as [|tag tags].
  - simpl. intros [= <-]. simpl. auto 10.
  - cbn [length Nat.ltb Nat.leb].
    destruct (first_indexed Atoi (tag :: tags)) eqn:Hfirst;
      match goal with
      | |- context [range_tags ?f 0 ?t ?s] =>
          destruct (range_tags f 0 t s) as [s1|] eqn:Hr
      end; try discriminate; cbn [arg_bind]; intros [= <-]; simpl;
      (split; [exact Hn|]); (split; [reflexivity|]);
      (split; [reflexivity|]).
    + right. left. auto.
    + right. right. auto.
Qed.

Lemma newFnStringBindingArg_length fnType0 wr tags r :
  newFnStringBindingArg Atoi fnType0 wr tags = Done r ->
  (0 <= numIn_of fnType0 wr)%Z
  /\ length (fnTags r) = Z.to_nat (numIn_of fnType0 wr)
  /\ fnType r = fnType0 /\ withReceiver r = wr.
Proof.
  intros Hr. apply newFnStringBindingArg_Done in Hr.
  destruct Hr as (Hn & Hty & Hwr & Hcases).
  split; [exact Hn|]. split; [|auto].
  destruct Hcases as [(_ & ->)|[(_ & _ & Hr)|(_ & _ & Hr)]].
  - apply length_replicate.
  - apply (range_tags_invariant _
             (fun s => length s = Z.to_nat (numIn_of fnType0 wr)))
      in Hr; [exact Hr| |apply length_replicate].
    intros s k tag s' Hs Hstep.
    now rewrite (indexed_step_length _ _ _ _ _ _ Hstep).
  - apply (range_tags_invariant _
             (fun s => length s = Z.to_nat (numIn_of fnType0 wr)))
      in Hr; [exact Hr| |apply length_replicate].
    intros s k tag s' Hs Hstep.
    now rewrite (plain_step_length _ _ _ _ _ _ Hstep).
Qed.

(** X15. A successful result has one slot for each parameter to bind, and the
    constructor fails in [make] when there are fewer than no parameters,
    that is, for a receiver that the function type does not have. *)
Theorem newFnStringBindingArg_slots fnType0 wr tags :
  (forall r,
     newFnStringBindingArg Atoi fnType0 wr tags = Done r ->
     (0 <= numIn_of fnType0 wr)%Z
     /\ Z.of_nat (length (fnTags r)) = numIn_of fnType0 wr
     /\ fnType r = fnType0 /\ withReceiver r = wr)
  /\
  ((numIn_of fnType0 wr < 0)%Z ->
   newFnStringBindingArg Atoi fnType0 wr tags
   = Failed MakeSliceLenOutOfRange).
Proof.
  split.
  - intros r Hr.
    apply newFnStringBindingArg_length in Hr as (Hn & Hlen & Hty & Hwr).
    split; [exact Hn|]. split; [lia|auto].
  - intros Hneg. unfold newFnStringBindingArg, make_fnTags.
    fold (numIn_of fnType0 wr).
    destruct (Z.ltb_spec (numIn_of fnType0 wr) 0); [reflexivity|lia].
Qed.

Lemma range_tags_Forall
    (step : list (list string) -> Z -> string -> arg_outcome (list (list string)))
    (Q : string -> Prop) tags :
  (forall s k tag s', step s k tag = Done s' -> Q tag) ->
  forall k s s', range_tags step k tags s = Done s' -> Forall Q tags.
Proof.
  intros Hstep. induction tags as [|tag tags IH]; intros k s s' Hr.
  - constructor.
  - simpl in Hr. destruct (step s k tag) as [s1|] eqn:Hs; [|discriminate].
    simpl in Hr. constructor; [exact (Hstep _ _ _ _ Hs)|].
    exact (IH _ _ _ Hr).
Qed.

(** X16. The tags of a successful result are of one kind: all of them carry an
    index that names a parameter, or none of them carries an index. The
    first tag alone decides which loop runs, and each loop panics on a tag
    of the other kind and on an index out of range. *)
Theorem accepted_tags_are_uniform fnType0 wr tags r :
  newFnStringBindingArg Atoi fnType0 wr tags = Done r ->
  Forall (fun tag => exists i, tag_index Atoi tag = Some i
                               /\ (0 <= i < numIn_of fnType0 wr)%Z) tags
  \/ Forall (fun tag => tag_index Atoi tag = None) tags.
Proof.
  intros Hr. apply newFnStringBindingArg_Done in Hr.
  destruct Hr as (_ & _ & _ & [(-> & _)|[(_ & _ & Hr)|(_ & _ & Hr)]]).
  - left. constructor.
  - left. revert Hr. apply range_tags_Forall.
    intros s k tag s'. rewrite indexed_step_eq.
    destruct (tag_index Atoi tag) as [i|]; [|discriminate].
    destruct (Z.ltb_spec i 0); [discriminate|].
    destruct (Z.leb_spec (numIn_of fnType0 wr) i); [discriminate|].
    intros _. exists i. split; [reflexivity|lia].
  - right. revert Hr. apply range_tags_Forall.
    intros s k tag s'. rewrite plain_step_eq.
    now destruct (tag_index Atoi tag).
Qed.

(** X17. Only the last slot of a variadic function ever holds more than one
    tag: every other slot of a successful result holds one tag at most. *)
Theorem single_tag_per_fixed_parameter fnType0 wr tags r (i : nat) slot :
  newFnStringBindingArg Atoi fnType0 wr tags = Done r ->
  fnTags r !! i = Some slot ->
  IsVariadic fnType0 = false \/ Z.of_nat i <> (numIn_of fnType0 wr - 1)%Z ->
  length slot <= 1.
Proof.
  intros Hr. apply newFnStringBindingArg_Done in Hr.
  destruct Hr as (Hn & _ & _ & Hcases).
  set (n := numIn_of fnType0 wr) in *. set (v := IsVariadic fnType0) in *.
  set (P := fun s : list (list string) =>
              forall (i0 : nat) x,
                s !! i0 = Some x ->
                v = false \/ Z.of_nat i0 <> (n - 1)%Z -> length x <= 1).
  assert (P (replicate (Z.to_nat n) [])) as Hinit.
  { intros i0 x Hx _. apply lookup_replicate in Hx as [-> _]. simpl. lia. }
  assert (forall s (j0 : nat) (x : string), P s -> P (<[j0 := [x]]> s))
    as Hwrite.
  { intros s j0 x HP i0 y Hy Hex.
    destruct (decide (j0 = i0)) as [->|Hne].
    - apply list_lookup_insert_Some in Hy as [(_ & <- & _)|(Hne & _)];
        [simpl; lia|congruence].
    - rewrite list_lookup_insert_ne in Hy by exact Hne. eauto. }
  assert (forall s (x : string) (old : list string),
            P s -> v = true -> (0 <= n - 1)%Z ->
            P (<[Z.to_nat (n - 1) := old ++ [x]]> s))
    as Happend.
  { intros s x old HP Hv Hpos i0 y Hy Hex.
    destruct (decide (Z.to_nat (n - 1) = i0)) as [He|Hne].
    - destruct Hex as [Hex|Hex]; [congruence|]. lia.
    - rewrite list_lookup_insert_ne in Hy by exact Hne. eauto. }
  assert (P (fnTags r)) as HP.
  { destruct Hcases as [(_ & ->)|[(_ & _ & Hr)|(_ & _ & Hr)]];
      [exact Hinit| |].
    - revert Hr. apply range_tags_invariant; [|exact Hinit].
      intros s k tag s' HPs. rewrite indexed_step_eq.
      destruct (tag_index Atoi tag) as [j|]; [|discriminate].
      destruct ((j <? 0)%Z || (n <=? j)%Z); [discriminate|].
      destruct v eqn:Hv; cbn [andb].
      + destruct (Z.eqb_spec j (n - 1)) as [->|_]; intros Hs.
        * apply slot_append_Done in Hs as (old & Hpos & _ & ->).
          now apply Happend.
        * apply slot_write_Done in Hs as (_ & _ & ->). now apply Hwrite.
      + intros Hs. apply slot_write_Done in Hs as (_ & _ & ->).
        now apply Hwrite.
    - revert Hr. apply range_tags_invariant; [|exact Hinit].
      intros s k tag s' HPs. rewrite plain_step_eq.
      destruct (tag_index Atoi tag); [discriminate|].
      destruct v eqn:Hv; cbn [andb].
      + destruct (n - 1 <=? k)%Z; intros Hs.
        * apply slot_append_Done in Hs as (old & Hpos & _ & ->).
          now apply Happend.
        * apply slot_write_Done in Hs as (_ & _ & ->). now apply Hwrite.
      + intros Hs. apply slot_write_Done in Hs as (_ & _ & ->).
        now apply Hwrite. }
  intros Hi Hex. exact (HP i slot Hi Hex).
Qed.


(** *** Tags without index *)

Lemma insert_middle {A : Type} (pre l : list A) (x y : A) :
  <[length pre := x]> (pre ++ y :: l) = pre ++ x :: l.
Proof.
  rewrite <- (Nat.add_0_r (length pre)) at 1. now rewrite insert_app_r.
Qed.

Lemma first_indexed_plain tags :
  Forall (fun tag => tag_index Atoi tag = None) tags ->
  first_indexed Atoi tags = false.
Proof.
  destruct tags as [|tag tags]; [reflexivity|].
  intros Hplain. apply Forall_cons in Hplain as [Htag _].
  now rewrite first_indexed_eq, Htag.
Qed.

Lemma plain_loop_fits n tags : forall (pre : list (list string)) (m : nat),
  Forall (fun tag => tag_index Atoi tag = None) tags ->
  length tags <= m ->
  range_tags (plain_step Atoi n false) (Z.of_nat (length pre)) tags
    (pre ++ replicate m [])
  = Done (pre ++ map (fun tag => [tag]) tags
              ++ replicate (m - length tags) []).
Proof.
  induction tags as [|tag tags IH]; intros pre m Hplain Hm.
  - simpl. now rewrite Nat.sub_0_r.
  - apply Forall_cons in Hplain as [Htag Hplain].
    destruct m as [|m]; [simpl in Hm; lia|].
    cbn [range_tags]. rewrite plain_step_eq, Htag. cbn [andb].
    rewrite slot_write_in_range;
      [|lia|rewrite Nat2Z.id, length_app; simpl; lia].
    cbn [arg_bind]. rewrite Nat2Z.id. cbn [replicate].
    rewrite insert_middle.
    replace (Z.of_nat (length pre) + 1)%Z
      with (Z.of_nat (length (pre ++ [[tag]])))
      by (rewrite length_app; simpl; lia).
    replace (pre ++ [tag] :: replicate m [])
      with ((pre ++ [[tag]]) ++ replicate m [])
      by (now rewrite <- app_assoc).
    rewrite IH; [|exact Hplain|simpl in Hm; lia].
    simpl. now rewrite <- app_assoc.
Qed.

Lemma plain_loop_overflows n tags : forall (pre : list (list string)) (m : nat),
  Forall (fun tag => tag_index Atoi tag = None) tags ->
  m < length tags ->
  range_tags (plain_step Atoi n false) (Z.of_nat (length pre)) tags
    (pre ++ replicate m [])
  = Failed IndexOutOfRange.
Proof.
  induction tags as [|tag tags IH]; intros pre m Hplain Hm;
    [simpl in Hm; lia|].
  apply Forall_cons in Hplain as [Htag Hplain].
  cbn [range_tags]. rewrite plain_step_eq, Htag. cbn [andb].
  destruct m as [|m].
  - unfold slot_write. destruct (Z.ltb_spec (Z.of_nat (length pre)) 0); [lia|].
    rewrite Nat2Z.id. simpl. rewrite app_nil_r.
    now rewrite Nat.ltb_irrefl.
  - rewrite slot_write_in_range;
      [|lia|rewrite Nat2Z.id, length_app; simpl; lia].
    cbn [arg_bind]. rewrite Nat2Z.id. cbn [replicate].
    rewrite insert_middle.
    replace (Z.of_nat (length pre) + 1)%Z
      with (Z.of_nat (length (pre ++ [[tag]])))
      by (rewrite length_app; simpl; lia).
    replace (pre ++ [tag] :: replicate m [])
      with ((pre ++ [[tag]]) ++ replicate m [])
      by (now rewrite <- app_assoc).
    apply IH; [exact Hplain|simpl in Hm; lia].
Qed.

(** The second phase of the loop for a variadic function: every further
    tag is appended to the last slot. *)
Lemma plain_loop_variadic_tail n tags :
  forall (pre : list (list string)) (slot : list string) k,
    Forall (fun tag => tag_index Atoi tag = None) tags ->
    (n - 1 <= k)%Z -> Z.of_nat (length pre) = (n - 1)%Z ->
    range_tags (plain_step Atoi n true) k tags (pre ++ [slot])
    = Done (pre ++ [slot ++ tags]).
Proof.
  induction tags as [|tag tags IH]; intros pre slot k Hplain Hk Hpre.
  - simpl. now rewrite app_nil_r.
  - apply Forall_cons in Hplain as [Htag Hplain].
    cbn [range_tags]. rewrite plain_step_eq, Htag. cbn [andb].
    destruct (Z.leb_spec (n - 1) k); [|lia].
    rewrite (slot_append_in_range _ _ _ slot);
      [|lia|rewrite <- Hpre, Nat2Z.id; apply list_lookup_middle; reflexivity].
    cbn [arg_bind]. rewrite <- Hpre, Nat2Z.id, insert_middle.
    rewrite IH; [|exact Hplain|lia|exact Hpre].
    now rewrite <- app_assoc.
Qed.

Lemma plain_loop_variadic n tags :
  forall (pre : list (list string)) (m : nat),
    Forall (fun tag => tag_index Atoi tag = None) tags ->
    Z.of_nat (length pre + m) = (n - 1)%Z ->
    range_tags (plain_step Atoi n true) (Z.of_nat (length pre)) tags
      (pre ++ replicate m [] ++ [[]])
    = Done (pre ++ map (fun tag => [tag]) (take m tags)
                ++ replicate (m - length tags) [] ++ [drop m tags]).
Proof.
  induction tags as [|tag tags IH]; intros pre m Hplain Hn.
  - simpl. rewrite take_nil, drop_nil. simpl. now rewrite Nat.sub_0_r.
  - destruct m as [|m].
    + rewrite Nat.add_0_r in Hn.
      apply (plain_loop_variadic_tail n (tag :: tags) pre [] _ Hplain);
        [lia|exact Hn].
    + apply Forall_cons in Hplain as [Htag Hplain].
      cbn [range_tags]. rewrite plain_step_eq, Htag. cbn [andb].
      destruct (Z.leb_spec (n - 1) (Z.of_nat (length pre))); [lia|].
      rewrite slot_write_in_range;
        [|lia|rewrite Nat2Z.id, !length_app; simpl; lia].
      cbn [arg_bind]. rewrite Nat2Z.id. cbn [replicate app].
      rewrite insert_middle.
      replace (Z.of_nat (length pre) + 1)%Z
        with (Z.of_nat (length (pre ++ [[tag]])))
        by (rewrite length_app; simpl; lia).
      replace (pre ++ [tag] :: replicate m [] ++ [[]])
        with ((pre ++ [[tag]]) ++ replicate m [] ++ [[]])
        by (now rewrite <- app_assoc).
      rewrite IH; [|exact Hplain|rewrite length_app; simpl; lia].
      simpl. now rewrite <- app_assoc.
Qed.

(** X18. Tags without index on a function that is not variadic: when there are
    no more tags than parameters, the i-th tag becomes the only tag of the
    i-th parameter and the remaining parameters get none. *)
Theorem plain_tags_bind_in_order fnType0 wr tags :
  IsVariadic fnType0 = false ->
  Forall (fun tag => tag_index Atoi tag = None) tags ->
  (Z.of_nat (length tags) <= numIn_of fnType0 wr)%Z ->
  newFnStringBindingArg Atoi fnType0 wr tags =
    Done {| fnType := fnType0;
            fnTags := map (fun tag => [tag]) tags
                      ++ replicate (Z.to_nat (numIn_of fnType0 wr)
                                    - length tags) [];
            withReceiver := wr |}.
Proof.
  intros Hv Hplain Hfit.
  unfold newFnStringBindingArg, make_fnTags. fold (numIn_of fnType0 wr).
  destruct (Z.ltb_spec (numIn_of fnType0 wr) 0); [lia|]. cbn [arg_bind].
  rewrite (first_indexed_plain _ Hplain), Hv.
  destruct tags as [|tag tags]; [simpl; now rewrite Nat.sub_0_r|].
  cbn [length Nat.ltb Nat.leb].
  pose proof (plain_loop_fits (numIn_of fnType0 wr) (tag :: tags) []
                (Z.to_nat (numIn_of fnType0 wr)) Hplain) as Hloop.
  cbn [length app] in Hloop. change (Z.of_nat 0) with 0%Z in Hloop. rewrite Hloop by (cbn [length] in *; lia).
  reflexivity.
Qed.

(** X19. Tags without index on a function that is not variadic: with more tags
    than parameters the constructor panics with an index out of range. *)
Theorem too_many_plain_tags_panic fnType0 wr tags :
  IsVariadic fnType0 = false ->
  Forall (fun tag => tag_index Atoi tag = None) tags ->
  (0 <= numIn_of fnType0 wr < Z.of_nat (length tags))%Z ->
  newFnStringBindingArg Atoi fnType0 wr tags = Failed IndexOutOfRange.
Proof.
  intros Hv Hplain Hmany.
  unfold newFnStringBindingArg, make_fnTags. fold (numIn_of fnType0 wr).
  destruct (Z.ltb_spec (numIn_of fnType0 wr) 0); [lia|]. cbn [arg_bind].
  rewrite (first_indexed_plain _ Hplain), Hv.
  destruct tags as [|tag tags]; [simpl in Hmany; lia|].
  cbn [length Nat.ltb Nat.leb].
  pose proof (plain_loop_overflows (numIn_of fnType0 wr) (tag :: tags) []
                (Z.to_nat (numIn_of fnType0 wr)) Hplain) as Hloop.
  cbn [length app] in Hloop. change (Z.of_nat 0) with 0%Z in Hloop. rewrite Hloop by (cbn [length] in *; lia).
  reflexivity.
Qed.

(** X20. Tags without index on a variadic function: the parameters before the
    last get one tag each, in order, and the last parameter gets all the
    tags that remain, in order. *)
Theorem plain_tags_variadic fnType0 wr tags :
  IsVariadic fnType0 = true ->
  Forall (fun tag => tag_index Atoi tag = None) tags ->
  (1 <= numIn_of fnType0 wr)%Z ->
  let fixed := Z.to_nat (numIn_of fnType0 wr - 1) in
  newFnStringBindingArg Atoi fnType0 wr tags =
    Done {| fnType := fnType0;
            fnTags := map (fun tag => [tag]) (take fixed tags)
                      ++ replicate (fixed - length tags) []
                      ++ [drop fixed tags];
            withReceiver := wr |}.
Proof.
  intros Hv Hplain Hn fixed.
  unfold newFnStringBindingArg, make_fnTags. fold (numIn_of fnType0 wr).
  destruct (Z.ltb_spec (numIn_of fnType0 wr) 0); [lia|]. cbn [arg_bind].
  rewrite (first_indexed_plain _ Hplain), Hv.
  replace (Z.to_nat (numIn_of fnType0 wr)) with (fixed + 1)
    by (unfold fixed; lia).
  rewrite replicate_add. cbn [replicate].
  destruct tags as [|tag tags].
  - simpl. rewrite Nat.sub_0_r.
    now rewrite take_nil, drop_nil.
  - cbn [length Nat.ltb Nat.leb].
    pose proof (plain_loop_variadic (numIn_of fnType0 wr) (tag :: tags) []
                  fixed Hplain) as Hloop.
    cbn [length app] in Hloop. change (Z.of_nat 0) with 0%Z in Hloop.
    rewrite Hloop by (unfold fixed; cbn [length] in *; lia).
    reflexivity.
Qed.


(** *** Tags with index *)

Lemma indexed_loop_slot n v (i : nat) tags :
  forall s s' k old,
    range_tags (indexed_step Atoi n v) k tags s = Done s' ->
    s !! i = Some old ->
    s' !! i = Some (indexed_slot Atoi n v i old tags).
Proof.
  unfold indexed_slot.
  induction tags as [|tag tags IH]; intros s s' k old Hr Hold.
  - injection Hr as <-. simpl. rewrite app_nil_r, Hold.
    now destruct (v && _).
  - cbn [range_tags] in Hr. rewrite indexed_step_eq in Hr.
    unfold tags_at. cbn [List.filter]. fold (tags_at Atoi i tags).
    destruct (tag_index Atoi tag) as [j|]; [|discriminate].
    destruct ((j <? 0)%Z || (n <=? j)%Z); [discriminate|].
    destruct (Z.eqb_spec j (Z.of_nat i)) as [->|Hne].
    + destruct (v && (Z.of_nat i =? n - 1)%Z) eqn:Hlast.
      * destruct (slot_append _ _ _) as [s1|] eqn:Hs; [|discriminate].
        cbn [arg_bind] in Hr.
        apply slot_append_Done in Hs as (old' & _ & Hold' & ->).
        rewrite Nat2Z.id in *. rewrite Hold in Hold'.
        injection Hold' as <-.
        specialize (IH _ _ _ (old ++ [tag_rest tag]) Hr).
        rewrite IH.
        -- cbn [map]. now rewrite <- app_assoc.
        -- apply list_lookup_insert_eq, (lookup_lt_Some _ _ _ Hold).
      * destruct (slot_write _ _ _) as [s1|] eqn:Hs; [|discriminate].
        cbn [arg_bind] in Hr.
        apply slot_write_Done in Hs as (_ & _ & ->).
        rewrite Nat2Z.id in *.
        specialize (IH _ _ _ [tag_rest tag] Hr).
        rewrite IH.
        -- rewrite last_cons. now destruct (last (tags_at Atoi i tags)).
        -- apply list_lookup_insert_eq, (lookup_lt_Some _ _ _ Hold).
    + assert (forall x, (0 <= j)%Z ->
                <[Z.to_nat j := x]> s !! i = Some old) as Hother.
      { intros x Hj. rewrite list_lookup_insert_ne by lia. exact Hold. }
      destruct (v && (j =? n - 1)%Z).
      * destruct (slot_append _ _ _) as [s1|] eqn:Hs; [|discriminate].
        cbn [arg_bind] in Hr.
        apply slot_append_Done in Hs as (old' & Hj & _ & ->).
        exact (IH _ _ _ old Hr (Hother _ Hj)).
      * destruct (slot_write _ _ _) as [s1|] eqn:Hs; [|discriminate].
        cbn [arg_bind] in Hr.
        apply slot_write_Done in Hs as (Hj & _ & ->).
        exact (IH _ _ _ old Hr (Hother _ Hj)).
Qed.

(** X21. Tags with index: in a successful result every parameter holds the
    rest (what follows [i:]) of the last tag given for its index, or no tag
    when none was given; the last parameter of a variadic function holds
    the rests of all the tags given for it, in the order they came. *)
Theorem indexed_tags_bind_by_index fnType0 wr tags r (i : nat) :
  newFnStringBindingArg Atoi fnType0 wr tags = Done r ->
  first_indexed Atoi tags = true ->
  (Z.of_nat i < numIn_of fnType0 wr)%Z ->
  fnTags r !! i =
    Some (if IsVariadic fnType0
             && (Z.of_nat i =? numIn_of fnType0 wr - 1)%Z
          then map (tag_rest) (tags_at Atoi i tags)
          else match last (tags_at Atoi i tags) with
               | Some tag => [tag_rest tag]
               | None => []
               end).
Proof.
  intros Hr Hfirst Hi. apply newFnStringBindingArg_Done in Hr.
  destruct Hr as (Hn & _ & _ & [(-> & _)|[(_ & _ & Hr)|(_ & Hplain & _)]]).
  - discriminate.
  - apply (indexed_loop_slot _ _ i _ _ _ _ []) in Hr;
      [exact Hr|apply lookup_replicate_2; lia].
  - congruence.
Qed.

End BindingProperties.

Section GetProperties.

Context {W V : Type}.
Variable Atoi : string -> option Z.
Variable getArgValue : nat -> bool -> string -> W -> outcome V * W.

Implicit Types (ca : fnStringBindingArg) (slots : list (list string))
  (args : list V) (w : W).

Lemma get_elems_length (pos : nat) (tags : list string) :
  forall args w args' w',
    get_elems getArgValue pos tags args w = (Got args', w') ->
    length args' = length args + length tags.
Proof.
  induction tags as [|tag tags IH]; intros args w args' w' Hg.
  - injection Hg as <- <-. simpl. lia.
  - cbn [get_elems] in Hg.
    destruct (getArgValue pos true tag w) as [[ev|p] w1]; [|discriminate].
    apply IH in Hg. rewrite length_app in Hg. simpl in *. lia.
Qed.

Lemma get_slots_fixed ca slots :
  forall (i : nat) args w args' w',
    IsVariadic (fnType ca) = false ->
    (Z.of_nat (i + length slots)
     <= numIn_of (fnType ca) (withReceiver ca))%Z ->
    get_slots getArgValue ca i slots args w = (Got args', w') ->
    length args' = length args + length slots.
Proof.
  induction slots as [|tags slots IH]; intros i args w args' w' Hv Hn Hg.
  - injection Hg as <- <-. simpl. lia.
  - cbn [get_slots] in Hg. rewrite Hv in Hg. cbn [length] in Hn.
    destruct (NumIn (fnType ca) <=? _)%nat; [discriminate|].
    destruct (Z.ltb_spec (Z.of_nat i)
                (numIn_of (fnType ca) (withReceiver ca) - 1));
      [|destruct (Z.eqb_spec (Z.of_nat i)
                    (numIn_of (fnType ca) (withReceiver ca) - 1)); [|lia]];
      cbn [orb andb negb] in Hg;
      (destruct (getArgValue _ false _ w) as [[iv|p] w1]; [|discriminate]);
      apply IH in Hg; try exact Hv; try lia;
      rewrite length_app in Hg; simpl in *; lia.
Qed.

Lemma get_slots_variadic ca slots :
  forall (i : nat) args w args' w' (rest : list string),
    IsVariadic (fnType ca) = true ->
    Z.of_nat (i + length slots)
    = numIn_of (fnType ca) (withReceiver ca) ->
    last slots = Some rest ->
    get_slots getArgValue ca i slots args w = (Got args', w') ->
    length args' = length args + (length slots - 1) + length rest.
Proof.
  induction slots as [|tags slots IH];
    intros i args w args' w' rest Hv Hn Hlast Hg; [discriminate|].
  cbn [get_slots] in Hg. rewrite Hv in Hg. cbn [length] in Hn.
  destruct (NumIn (fnType ca) <=? _)%nat; [discriminate|].
  destruct slots as [|tags2 slots].
  - simpl in Hlast. injection Hlast as ->.
    destruct (Z.ltb_spec (Z.of_nat i)
                (numIn_of (fnType ca) (withReceiver ca) - 1));
      [simpl in Hn; lia|].
    rewrite Bool.andb_false_r in Hg. cbn [orb] in Hg.
    destruct (get_elems getArgValue _ rest args w) as [[args1| |] w1] eqn:He;
      try discriminate.
    cbn [get_slots] in Hg. injection Hg as <- <-.
    apply get_elems_length in He. simpl. lia.
  - rewrite last_cons_cons in Hlast.
    destruct (Z.ltb_spec (Z.of_nat i)
                (numIn_of (fnType ca) (withReceiver ca) - 1));
      [|simpl in Hn; lia].
    cbn [orb] in Hg.
    destruct (getArgValue _ false _ w) as [[iv|p] w1]; [|discriminate].
    apply (IH _ _ _ _ _ rest Hv) in Hg; [|simpl in *; lia|exact Hlast].
    rewrite length_app in Hg. simpl in *. lia.
Qed.

(** X22. The constructor and [Get] together. When [Get] returns for the binding
    of a function that is not variadic, it returns one value for each
    parameter, whether a tag was given for it or not; for a variadic
    function it returns one value for each parameter before the last and
    one for each tag of the last. *)
Theorem Get_argument_count fnType0 wr tags ca w args w' :
  newFnStringBindingArg Atoi fnType0 wr tags = Done ca ->
  fnStringBindingArg_Get getArgValue ca w = (Got args, w') ->
  (IsVariadic fnType0 = false ->
   Z.of_nat (length args) = numIn_of fnType0 wr)
  /\
  (IsVariadic fnType0 = true ->
   forall rest, last (fnTags ca) = Some rest ->
   Z.of_nat (length args)
   = (numIn_of fnType0 wr - 1 + Z.of_nat (length rest))%Z).
Proof.
  intros Hnew Hget.
  apply newFnStringBindingArg_length in Hnew as (Hn & Hlen & Hty & Hwr).
  unfold fnStringBindingArg_Get in Hget. split.
  - intros Hv. apply get_slots_fixed in Hget;
      [simpl in Hget; lia|now rewrite Hty|rewrite Hty, Hwr; lia].
  - intros Hv rest Hlast.
    apply (get_slots_variadic _ _ _ _ _ _ _ rest) in Hget;
      [|now rewrite Hty|rewrite Hty, Hwr; lia|exact Hlast].
    assert (length (fnTags ca) <> 0).
    { destruct (fnTags ca); [discriminate|simpl; lia]. }
    simpl in Hget. lia.
Qed.

End GetProperties.

(** ** Properties of the option arguments *)

Section OptionProperties.

Context {W V : Type} `{Externals}.

Implicit Types (arg : optionArg W V) (options : list (optionArg W V))
  (args : list V) (ctx : SpringContext) (w : W).

(** X23. [ConditionOnProfile] attaches the condition [ConditionOnProperty]
    attaches: the option is then decided by whether the context has a
    property under the name given, whatever its active profile is. On an
    option that carries no other condition [Matches] answers just that. *)
Theorem ConditionOnProfile_tests_property arg (profile : string) ctx w :
  ConditionOnProfile arg profile = ConditionOnProperty arg profile
  /\ (opt_cond arg = NewConditional ->
      Conditional_Matches (opt_cond (ConditionOnProfile arg profile)) ctx w
      = Some (Return (0 <? length (GetPrefixProperties ctx profile))%nat,
              w)).
Proof.
  split; [reflexivity|]. intros Hfresh.
  unfold ConditionOnProfile, with_cond, OnProperty. cbn [opt_cond].
  rewrite Hfresh. reflexivity.
Qed.

(** X24. [fnOptionBindingArg.Get] over two lists of options in a row: the
    second list is gone through after the first, from the world and with
    the arguments the first left, and not at all when the first panics. *)
Theorem options_loop_app options1 options2 args ctx w :
  options_loop (options1 ++ options2) args ctx w =
    match options_loop options1 args ctx w with
    | Some (Return args1, w1) => options_loop options2 args1 ctx w1
    | Some (Panic p, w1) => Some (Panic p, w1)
    | None => None
    end.
Proof.
  revert args w.
  induction options1 as [|option options1 IH]; intros args w;
    [reflexivity|].
  cbn [app options_loop].
  destruct (optionArg_call option ctx w) as [[[[arg|]|p] w1]|];
    try reflexivity; apply IH.
Qed.

Lemma optionArg_call_cases arg ctx w :
  optionArg_call arg ctx w =
    match Conditional_Matches (opt_cond arg) ctx w with
    | None => None
    | Some (Panic p, w1) => Some (Panic p, w1)
    | Some (Return false, w1) => Some (Return None, w1)
    | Some (Return true, w1) =>
        match opt_invoke arg ctx w1 with
        | (Return v, w2) => Some (Return (Some v), w2)
        | (Panic p, w2) => Some (Panic p, w2)
        end
    end.
Proof. reflexivity. Qed.

Lemma collects_cons_inv arg options ctx w args w' :
  collects (arg :: options) ctx w args w' ->
  (exists w1,
     Conditional_Matches (opt_cond arg) ctx w = Some (Return false, w1)
     /\ collects options ctx w1 args w')
  \/ (exists w1 v w2 args1,
        Conditional_Matches (opt_cond arg) ctx w = Some (Return true, w1)
        /\ opt_invoke arg ctx w1 = (Return v, w2)
        /\ args = v :: args1
        /\ collects options ctx w2 args1 w').
Proof. inversion 1; subst; [left|right]; eauto 10. Qed.

Lemma options_loop_collects options ctx :
  forall args0 w args w',
    options_loop options args0 ctx w = Some (Return args, w')
    <-> exists more, args = args0 ++ more /\ collects options ctx w more w'.
Proof.
  induction options as [|option options IH]; intros args0 w args w'.
  - simpl. split.
    + intros [= <- <-]. exists []. rewrite app_nil_r.
      split; [reflexivity|constructor].
    + intros (more & -> & Hc). inversion Hc; subst.
      now rewrite app_nil_r.
  - cbn [options_loop]. rewrite optionArg_call_cases.
    destruct (Conditional_Matches (opt_cond option) ctx w)
      as [[[[|]|p] w1]|] eqn:Hm.
    + destruct (opt_invoke option ctx w1) as [[v|p] w2] eqn:Hv.
      * rewrite IH. split.
        -- intros (more & -> & Hc). exists (v :: more).
           rewrite <- app_assoc. split; [reflexivity|].
           eapply collects_take; eauto.
        -- intros (more & -> & Hc).
           apply collects_cons_inv in Hc
             as [(w3 & Hf & _)|(w3 & v0 & w4 & args1 & Ht & Hi & -> & Hc)];
             [congruence|].
           assert (w3 = w1) as -> by congruence.
           assert (v0 = v /\ w4 = w2) as [-> ->]
             by (split; congruence).
           exists args1. now rewrite <- app_assoc.
      * split; [discriminate|].
        intros (more & -> & Hc).
        apply collects_cons_inv in Hc
          as [(w3 & Hf & _)|(w3 & v0 & w4 & args1 & Ht & Hi & _)];
          [congruence|].
        assert (w3 = w1) as -> by congruence. congruence.
    + rewrite IH. split.
      * intros (more & -> & Hc). exists more. split; [reflexivity|].
        eapply collects_skip; eauto.
      * intros (more & -> & Hc).
        apply collects_cons_inv in Hc
          as [(w3 & Hf & Hc)|(w3 & v0 & w4 & args1 & Ht & _)];
          [|congruence].
        assert (w3 = w1) as -> by congruence. eauto.
    + split; [discriminate|].
      intros (more & -> & Hc).
      apply collects_cons_inv in Hc
        as [(w3 & Hf & _)|(w3 & v0 & w4 & args1 & Ht & _)]; congruence.
    + split; [discriminate|].
      intros (more & -> & Hc).
      apply collects_cons_inv in Hc
        as [(w3 & Hf & _)|(w3 & v0 & w4 & args1 & Ht & _)]; congruence.
Qed.

(** X25. [fnOptionBindingArg.Get] returns exactly the values of the options
    whose condition returns true, one for each, in the order of the
    options; an option whose condition returns false is not invoked and
    adds nothing, so there are never more values than options. *)
Theorem Get_collects_matching_options options ctx w args w' :
  (fnOptionBindingArg_Get options ctx w = Some (Return args, w')
   <-> collects options ctx w args w')
  /\ (fnOptionBindingArg_Get options ctx w = Some (Return args, w') ->
      length args <= length options).
Proof.
  assert (fnOptionBindingArg_Get options ctx w = Some (Return args, w')
          <-> collects options ctx w args w') as Hiff.
  { unfold fnOptionBindingArg_Get. rewrite options_loop_collects.
    split; [now intros (more & -> & Hc)|eauto]. }
  split; [exact Hiff|].
  intros Hget. apply Hiff in Hget. clear Hiff.
  induction Hget; simpl; lia.
Qed.

End OptionProperties.

(** ** The further properties at work on the test doubles *)

Lemma profileCondition_wildcard_witness :
  exists r,
    Matches (@profileCondition nat "") Demo.ctx 0 = (Return r, 0)
    /\ r = true.
Proof.
  destruct (profileCondition_wildcard (W := nat) "" Demo.ctx 0)
    as (r & Hm & Hr).
  exists r. split; [exact Hm|]. apply Hr. left. reflexivity.
Defined.

Lemma group_any_semantics_witness :
  Matches (conditions ConditionOr
             [Demo.counting false; Demo.counting true; Demo.counting true])
    Demo.ctx 0 = (Return true, 2).
Proof.
  refine (proj2 (proj1 (group_any_semantics
            [Demo.counting false; Demo.counting true; Demo.counting true]
            Demo.ctx 0 2 _)) _); [discriminate|].
  exists [Demo.counting false], (Demo.counting true),
    [Demo.counting true], 1.
  split; [reflexivity|]. split; [|reflexivity].
  exists 1. split; reflexivity.
Defined.

Lemma group_all_semantics_witness :
  Matches (conditions ConditionAnd
             [Demo.counting true; Demo.counting false; Demo.counting true])
    Demo.ctx 0 = (Return false, 2).
Proof.
  refine (proj2 (proj2 (group_all_semantics
            [Demo.counting true; Demo.counting false; Demo.counting true]
            Demo.ctx 0 2 _)) _); [discriminate|].
  exists [Demo.counting true], (Demo.counting false),
    [Demo.counting true], 1.
  split; [reflexivity|]. split; [|reflexivity].
  exists 1. split; reflexivity.
Defined.

Lemma group_unknown_operator_panics_witness :
  Matches (conditions 0%Z [Demo.counting true]) Demo.ctx 0
  = (Panic (ErrorsNew "error condition op mode"), 0).
Proof.
  apply group_unknown_operator_panics; discriminate.
Defined.

Lemma built_store_is_linear_chain_witness :
  node_next {| node_cond := Demo.counting true; node_op := ConditionOr;
               node_next := Some 1 |} = Some 1
  /\ (ConditionOr = ConditionOr \/ ConditionOr = ConditionAnd).
Proof.
  refine (proj1 (proj2 (proj2 (built_store_is_linear_chain
            [CallOnCondition (Demo.counting true); CallOr;
             CallOnCondition (Demo.counting false)] 0
            {| node_cond := Demo.counting true; node_op := ConditionOr;
               node_next := Some 1 |})) eq_refl) _).
  simpl. lia.
Defined.

Lemma Empty_false_is_final_witness :
  Empty (build ([@CallAnd nat]
                ++ [CallOnCondition (Demo.counting true)])) = false.
Proof.
  exact (proj2 (Empty_false_is_final [CallAnd]
                  [CallOnCondition (Demo.counting true)]) eq_refl).
Defined.

Lemma node_unknown_operator_panics_witness :
  conditionNode_Matches 1
    [ {| node_cond := Demo.counting true; node_op := 7%Z;
         node_next := Some 1 |};
      {| node_cond := Demo.counting false; node_op := 0%Z;
         node_next := None |} ] 0 Demo.ctx 0
  = Some (Panic (ErrorsNew "error condition op mode"), 1).
Proof.
  refine (node_unknown_operator_panics
            [ {| node_cond := Demo.counting true; node_op := 7%Z;
                 node_next := Some 1 |};
              {| node_cond := Demo.counting false; node_op := 0%Z;
                 node_next := None |} ] 0 1
            {| node_cond := Demo.counting true; node_op := 7%Z;
               node_next := Some 1 |}
            {| node_cond := Demo.counting false; node_op := 0%Z;
               node_next := None |}
            Demo.ctx 0 true 1 0
            eq_refl _ eq_refl eq_refl _ _ _ eq_refl); discriminate.
Defined.

Lemma built_chain_evaluates_right_nested_witness :
  Conditional_Matches
    (build [CallOnCondition (Demo.counting false); CallAnd;
            CallOnCondition (Demo.counting true); CallOr;
            CallOnCondition (Demo.counting true)]) Demo.ctx 0
  = Some (Return false, 1).
Proof.
  refine (built_chain_evaluates_right_nested (Demo.counting false)
            [(LinkAnd, Demo.counting true); (LinkOr, Demo.counting true)]
            Demo.ctx 0 _ _); [discriminate|].
  repeat constructor; discriminate.
Defined.

Lemma OnCondition_nil_edge_witness :
  OnCondition (@NewConditional nat) nilCondition = NewConditional
  /\ Conditional_Matches
       (OnCondition (OnCondition NewConditional (Demo.counting true))
          nilCondition) Demo.ctx 0
     = Some (Panic (ErrorsNew "last op need a cond triggered"), 0).
Proof.
  split.
  - exact (proj1 OnCondition_nil_edge NewConditional newConditionNode
             eq_refl eq_refl).
  - apply (proj2 OnCondition_nil_edge). discriminate.
Defined.

Lemma newFnStringBindingArg_slots_witness :
  Z.of_nat (length [["a"]; ["b"]; []]) = 3%Z
  /\ newFnStringBindingArg DemoArgs.Atoi
       {| NumIn := 0; IsVariadic := false |} true ["a"]
     = Failed MakeSliceLenOutOfRange.
Proof.
  split.
  - exact (proj1 (proj2 (proj1 (newFnStringBindingArg_slots DemoArgs.Atoi
             DemoArgs.three false ["a"; "b"])
             {| fnType := DemoArgs.three; fnTags := [["a"]; ["b"]; []];
                withReceiver := false |} eq_refl))).
  - apply (proj2 (newFnStringBindingArg_slots DemoArgs.Atoi
                    {| NumIn := 0; IsVariadic := false |} true ["a"])).
    reflexivity.
Defined.

Lemma accepted_tags_are_uniform_witness :
  Forall (fun tag => exists i, tag_index DemoArgs.Atoi tag = Some i
                               /\ (0 <= i < 3)%Z) ["2:x"; "0:y"]
  \/ Forall (fun tag => tag_index DemoArgs.Atoi tag = None) ["2:x"; "0:y"].
Proof.
  exact (accepted_tags_are_uniform DemoArgs.Atoi DemoArgs.three false
           ["2:x"; "0:y"]
           {| fnType := DemoArgs.three; fnTags := [["y"]; []; ["x"]];
              withReceiver := false |} eq_refl).
Defined.

Lemma single_tag_per_fixed_parameter_witness :
  length ["w"] <= 1.
Proof.
  refine (single_tag_per_fixed_parameter DemoArgs.Atoi
            DemoArgs.three_variadic false ["2:x"; "0:y"; "2:z"; "0:w"]
            {| fnType := DemoArgs.three_variadic;
               fnTags := [["w"]; []; ["x"; "z"]];
               withReceiver := false |} 0 ["w"] eq_refl eq_refl _).
  right. discriminate.
Defined.

Lemma plain_tags_bind_in_order_witness :
  newFnStringBindingArg DemoArgs.Atoi DemoArgs.three false
    ["${a:=1}"; "x:y"]
  = Done {| fnType := DemoArgs.three;
            fnTags := [["${a:=1}"]; ["x:y"]; []];
            withReceiver := false |}.
Proof.
  refine (plain_tags_bind_in_order DemoArgs.Atoi DemoArgs.three false
            ["${a:=1}"; "x:y"] eq_refl _ _).
  - repeat constructor.
  - unfold numIn_of. simpl. lia.
Defined.

Lemma too_many_plain_tags_panic_witness :
  newFnStringBindingArg DemoArgs.Atoi DemoArgs.three false
    ["a"; "b"; "c"; "d"]
  = Failed IndexOutOfRange.
Proof.
  refine (too_many_plain_tags_panic DemoArgs.Atoi DemoArgs.three false
            ["a"; "b"; "c"; "d"] eq_refl _ _).
  - repeat constructor.
  - unfold numIn_of. simpl. lia.
Defined.

Lemma plain_tags_variadic_witness :
  newFnStringBindingArg DemoArgs.Atoi DemoArgs.three_variadic false
    ["a"; "b"; "c"; "d"]
  = Done {| fnType := DemoArgs.three_variadic;
            fnTags := [["a"]; ["b"]; ["c"; "d"]];
            withReceiver := false |}.
Proof.
  refine (plain_tags_variadic DemoArgs.Atoi DemoArgs.three_variadic false
            ["a"; "b"; "c"; "d"] eq_refl _ _).
  - repeat constructor.
  - unfold numIn_of. simpl. lia.
Defined.

Lemma indexed_tags_bind_by_index_witness :
  [["w"]; []; ["x"; "z"]] !! 2 = Some ["x"; "z"]
  /\ [["w"]; []; ["x"; "z"]] !! 0 = Some ["w"].
Proof.
  split.
  - refine (indexed_tags_bind_by_index DemoArgs.Atoi
              DemoArgs.three_variadic false ["2:x"; "0:y"; "2:z"; "0:w"]
              {| fnType := DemoArgs.three_variadic;
                 fnTags := [["w"]; []; ["x"; "z"]];
                 withReceiver := false |} 2 eq_refl eq_refl _).
    unfold numIn_of. simpl. lia.
  - refine (indexed_tags_bind_by_index DemoArgs.Atoi
              DemoArgs.three_variadic false ["2:x"; "0:y"; "2:z"; "0:w"]
              {| fnType := DemoArgs.three_variadic;
                 fnTags := [["w"]; []; ["x"; "z"]];
                 withReceiver := false |} 0 eq_refl eq_refl _).
    unfold numIn_of. simpl. lia.
Defined.

Lemma ConditionOnProfile_tests_property_witness :
  Conditional_Matches
    (opt_cond (ConditionOnProfile
                 {| opt_cond := NewConditional;
                    opt_invoke := fun _ (w : nat) => (Return 7, S w) |}
                 "dev")) Demo.ctx 0
  = Some (Return false, 0).
Proof.
  exact (proj2 (ConditionOnProfile_tests_property
                  {| opt_cond := NewConditional;
                     opt_invoke := fun _ (w : nat) => (Return 7, S w) |}
                  "dev" Demo.ctx 0) eq_refl).
Defined.

Lemma Get_collects_matching_options_witness :
  collects
    [ {| opt_cond := OnCondition NewConditional (Demo.counting false);
         opt_invoke := fun _ (w : nat) => (Return 7, S w) |};
      {| opt_cond := NewConditional;
         opt_invoke := fun _ (w : nat) => (Return 9, S w) |} ]
    Demo.ctx 0 [9] 2
  /\ length [9] <= 2.
Proof.
  split.
  - exact (proj1 (proj1 (Get_collects_matching_options
             [ {| opt_cond := OnCondition NewConditional
                                (Demo.counting false);
                  opt_invoke := fun _ (w : nat) => (Return 7, S w) |};
               {| opt_cond := NewConditional;
                  opt_invoke := fun _ (w : nat) => (Return 9, S w) |} ]
             Demo.ctx 0 [9] 2)) eq_refl).
  - exact (proj2 (Get_collects_matching_options
             [ {| opt_cond := OnCondition NewConditional
                                (Demo.counting false);
                  opt_invoke := fun _ (w : nat) => (Return 7, S w) |};
               {| opt_cond := NewConditional;
                  opt_invoke := fun _ (w : nat) => (Return 9, S w) |} ]
             Demo.ctx 0 [9] 2) eq_refl).
Defined.

Lemma consecutive_conditions_are_conjoined_witness :
  Conditional_Matches
    (build (map CallOnCondition
              [Demo.counting true; Demo.counting false; Demo.counting true]))
    Demo.ctx 0
  = Some (Return false, 2).
Proof.
  refine (consecutive_conditions_are_conjoined (Demo.counting true)
            [Demo.counting false; Demo.counting true] Demo.ctx 0 _ _);
    [discriminate|].
  repeat constructor; discriminate.
Defined.

Lemma Get_argument_count_witness :
  Z.of_nat (length ["a"; "b"; ""]) = 3%Z
  /\ Z.of_nat (length ["a"; "b"; "c"; "d"])
     = (3 - 1 + Z.of_nat (length ["c"; "d"]))%Z.
Proof.
  split.
  - refine (proj1 (Get_argument_count DemoArgs.Atoi
              (fun _ _ tag (w : nat) => (Return tag, S w))
              DemoArgs.three false ["a"; "b"]
              {| fnType := DemoArgs.three; fnTags := [["a"]; ["b"]; []];
                 withReceiver := false |}
              0 ["a"; "b"; ""] 3 eq_refl eq_refl) eq_refl).
  - refine (proj2 (Get_argument_count DemoArgs.Atoi
              (fun _ _ tag (w : nat) => (Return tag, S w))
              DemoArgs.three_variadic false ["a"; "b"; "c"; "d"]
              {| fnType := DemoArgs.three_variadic;
                 fnTags := [["a"]; ["b"]; ["c"; "d"]];
                 withReceiver := false |}
              0 ["a"; "b"; "c"; "d"] 4 eq_refl eq_refl)
              eq_refl ["c"; "d"] eq_refl).
Defined.
